(** * pygamma: alignments and their disorder

    A shallow embedding of [pygamma/alignement.py]: the disorder of a
    unitary alignement, the set-partition tests of [Alignement], the mean
    disorder of an alignment, and the construction of [BestAlignement]
    (candidate generation, pruning, the integer program handed to the
    solver, and the selection read back from it).

    Numbers.  The code computes on floats.  The model takes the float type
    and its operations as parameters, and is used at two instances:
    [Binary64], the IEEE 754 double precision numbers of Python and numpy,
    and [Float], exact rationals extended with [nan] and the infinities,
    where additions are associative and no operation rounds.  What is
    proved at the exact instance holds of the code up to rounding; the
    properties that rounding breaks are refuted at [Binary64].  A division
    by a numpy scalar returns [nan] or an infinity on a zero divisor;
    Python's own division of a float by the integer [0] raises
    [ZeroDivisionError].

    Exceptions.  A function that can raise returns a [result]; the
    exceptions are those the code can meet: [SetPartitionError] with its
    message, [KeyError], [AssertionError], [ZeroDivisionError], [TypeError],
    [IndexError], and the [ValueError] and [SolverError] of the solver
    library.

    Collaborators.  The timeline ([Continuum]) is an association list in
    the order of its iteration; the distance function and the solver are
    parameters.

    The file has the model first ([Float], [Binary64], [Pygamma],
    [Program], [Example]), then the properties: the disorder of a
    grouping, alignments and their partition, candidate generation, the
    best alignement and its optimality, and last the properties on small
    timelines, at the exact instance and in binary64. *)

From Stdlib Require Import String.
From Stdlib Require Import List Bool Arith Lia ZArith QArith Qcanon.
From Stdlib Require Import Permutation.
From Stdlib Require PrimFloat Uint63.
Import ListNotations.

Set Implicit Arguments.
Set Default Proof Using "Type".
Set Warnings "-inexact-float".
Close Scope Qc_scope.
Close Scope Q_scope.

(** ** Floating-point values, exactly *)

Module Float.

Local Open Scope Qc_scope.

(** A float is a finite value, [nan], or a signed infinity
    ([Inf true] is [+inf]). *)
Inductive npfloat : Type :=
| Fin (q : Qc)
| NaN
| Inf (positive : bool).

Definition Qc_eqb (a b : Qc) : bool :=
  match a ?= b with Eq => true | _ => false end.

Definition Qc_ltb (a b : Qc) : bool :=
  match a ?= b with Lt => true | _ => false end.

(** Integer to float conversion. *)
Fixpoint of_nat (n : nat) : Qc :=
  match n with
  | O => 0
  | S k => of_nat k + 1
  end.

(** [x / y] on finite values, where [y] is a numpy scalar: numpy only
    warns on a zero divisor and returns [nan] for [0/0], a signed infinity
    otherwise. *)
Definition np_div (x y : Qc) : npfloat :=
  if Qc_eqb y 0 then
    if Qc_eqb x 0 then NaN else Inf (Qc_ltb 0 x)
  else Fin (x / y).

(** [x + y] on floats. *)
Definition fadd (x y : npfloat) : npfloat :=
  match x, y with
  | Fin a, Fin b => Fin (a + b)
  | NaN, _ | _, NaN => NaN
  | Inf s, Inf t => if Bool.eqb s t then Inf s else NaN
  | Inf s, Fin _ | Fin _, Inf s => Inf s
  end.

(** [x * y] on floats. *)
Definition fmul (x y : npfloat) : npfloat :=
  match x, y with
  | Fin a, Fin b => Fin (a * b)
  | NaN, _ | _, NaN => NaN
  | Inf s, Inf t => Inf (Bool.eqb s t)
  | Inf s, Fin b | Fin b, Inf s =>
      if Qc_eqb b 0 then NaN
      else Inf (if Qc_ltb 0 b then s else negb s)
  end.

(** [x / y] on floats, [y] a numpy scalar. *)
Definition fdiv (x y : npfloat) : npfloat :=
  match x, y with
  | Fin a, Fin b => np_div a b
  | NaN, _ | _, NaN => NaN
  | Inf _, Inf _ => NaN
  | Inf s, Fin b => Inf (if Qc_ltb b 0 then negb s else s)
  | Fin _, Inf _ => Fin 0
  end.

(** [x < y] on floats: every comparison with [nan] is false. *)
Definition flt (x y : npfloat) : bool :=
  match x, y with
  | Fin a, Fin b => Qc_ltb a b
  | NaN, _ | _, NaN => false
  | Inf s, Inf t => negb s && t
  | Inf s, Fin _ => negb s
  | Fin _, Inf t => t
  end.

(** [x <= y] on floats. *)
Definition fle (x y : npfloat) : bool :=
  match x, y with
  | Fin a, Fin b => negb (Qc_ltb b a)
  | NaN, _ | _, NaN => false
  | Inf s, Inf t => negb s || t
  | Inf s, Fin _ => negb s
  | Fin _, Inf t => t
  end.

(** The quotient of a float by a positive integer [k]. *)
Definition fdiv_nat (x : npfloat) (k : nat) : npfloat :=
  match x with
  | Fin a => Fin (a / of_nat k)
  | NaN => NaN
  | Inf s => Inf s
  end.

(** [v > 0.9] on a finite value. *)
Definition selected (v : Qc) : bool := Qc_ltb (Q2Qc (9 # 10)) v.

End Float.
Import Float.

(** ** Floating-point values, in binary64 *)

(** The primitive floats are the IEEE 754 binary64 numbers, with the
    operations of the processor in the rounding to nearest. *)
Module Binary64.

Import PrimFloat.

(** Integer to float conversion. *)
Definition of_int (n : nat) : float := of_uint63 (Uint63.of_Z (Z.of_nat n)).

End Binary64.

(** [scipy.special.binom] at natural arguments, by Pascal's rule. *)
Fixpoint binom (n k : nat) : nat :=
  match n, k with
  | _, O => 1
  | O, S _ => 0
  | S n', S k' => binom n' k' + binom n' k
  end.

Module Pygamma.

(** ** Exceptions and results *)

Section Model.

Variables annotator unit payload : Type.
Variable annotator_eq_dec : forall a b : annotator, {a = b} + {a <> b}.
Variable unit_eq_dec : forall u v : unit, {u = v} + {u <> v}.

(** The message of a [SetPartitionError]: which couple, and whether it was
    never found or found more than once. *)
Inductive message : Type :=
| not_in_the_set (a : annotator) (u : unit)
| assigned_twice (a : annotator) (u : unit).

(** [ValueError] and [SolverError] are raised by the solver library
    only. *)
Inductive exn : Type :=
| SetPartitionError (m : message)
| KeyError
| AssertionError
| ZeroDivisionError
| TypeError
| IndexError
| ValueError
| SolverError.

Inductive result (A : Type) : Type :=
| Ok (x : A)
| Raise (e : exn).
Arguments Ok {A} x.
Arguments Raise {A} e.

Definition bind {A B : Type} (m : result A) (k : A -> result B) : result B :=
  match m with
  | Ok x => k x
  | Raise e => Raise e
  end.

Notation "x <- m ;; k" := (bind m (fun x => k))
  (at level 61, m at next level, right associativity).

Fixpoint mapM {A B : Type} (f : A -> result B) (l : list A)
  : result (list B) :=
  match l with
  | [] => Ok []
  | x :: l' => y <- f x ;; ys <- mapM f l' ;; Ok (y :: ys)
  end.

(** Lifting an optional value to a result: a missing key is a
    [KeyError]. *)
Definition or_KeyError {A : Type} (o : option A) : result A :=
  match o with
  | Some x => Ok x
  | None => Raise KeyError
  end.

(** ** The timeline *)

(** Modelled from the spec: the Timeline collaborator (class [Continuum]
    of [pygamma.continuum], not among the sources).  It holds, per
    annotator and in a stable order, that annotator's units with their
    annotation payloads.  [c[a]] and [c[a][u]] raise [KeyError] on an
    absent key. *)
Definition Annotation : Type := list (unit * payload).
Definition Continuum : Type := list (annotator * Annotation).

Definition iterannotators (c : Continuum) : list annotator := map fst c.

Definition itersegments (an : Annotation) : list unit := map fst an.

(** [len(continuum)]: the number of annotators. *)
Definition len (c : Continuum) : nat := length c.

(** [continuum.num_units]: the number of rows of the constraints matrix. *)
Definition num_units (c : Continuum) : nat :=
  fold_left (fun n e => n + length (snd e)) c 0.

Fixpoint getitem (c : Continuum) (a : annotator) : result Annotation :=
  match c with
  | [] => Raise KeyError
  | (a', an) :: c' => if annotator_eq_dec a a' then Ok an else getitem c' a
  end.

Fixpoint getlabel (an : Annotation) (u : unit) : result payload :=
  match an with
  | [] => Raise KeyError
  | (u', p) :: an' => if unit_eq_dec u u' then Ok p else getlabel an' u
  end.

(** ** Floats *)

(** The floats of the code: the constants [0.0], [1] (as an entry of the
    constraints matrix) and [0.9], the addition, the multiplication, the
    division by a numpy scalar, the comparison [<], and the conversion of
    an integer. *)
Variable float : Type.
Variables zero one nine_tenths : float.
Variables add mul div : float -> float -> float.
Variable less : float -> float -> bool.
Variable of_int : nat -> float.

(** ** The distance function *)

(** The combined dissimilarity: its value on two units with their
    payloads, and the constant charged for an empty slot. *)
Variable dissimilarity : unit * unit -> payload * payload -> float.
Variable DELTA_EMPTY : float.

(** ** Unitary alignements *)

(** One element of an n-tuple holds an annotator and a unit, [None] for a
    gap, and is unpacked as such by the loops of [disorder].  It is the
    two-element list [[annotator, unit]] that
    [get_unitary_alignements_best] builds, or the tuple
    [(annotator, unit)] that the docstring of [UnitaryAlignement]
    describes. *)
Inductive sequence : Type :=
| PyList
| PyTuple.

Record slot : Type := mkSlot {
  form : sequence;
  who : annotator;
  what : option unit
}.

Record UnitaryAlignement : Type := mkUnitaryAlignement {
  ua_continuum : Continuum;
  n_tuple : list slot
}.

(** [UnitaryAlignement.__init__], with its assertion on the length. *)
Definition UnitaryAlignement_init (c : Continuum) (t : list slot)
  : result UnitaryAlignement :=
  if Nat.eqb (length t) (len c) then Ok (mkUnitaryAlignement c t)
  else Raise AssertionError.

(** The term one couple of slots adds to the disorder (lines 120-125). *)
Definition couple_term (c : Continuum) (su sv : slot) : result float :=
  match what su, what sv with
  | Some unit_u, Some unit_v =>
      an_u <- getitem c (who su) ;;
      p_u <- getlabel an_u unit_u ;;
      an_v <- getitem c (who sv) ;;
      p_v <- getlabel an_v unit_v ;;
      Ok (dissimilarity (unit_u, unit_v) (p_u, p_v))
  | _, _ => Ok DELTA_EMPTY
  end.

(** The inner loop, over [n_tuple[idx + 1:]]; the state is
    [(disorder, num_couples)]. *)
Fixpoint inner_loop (c : Continuum) (su : slot) (rest : list slot)
  (st : float * nat) : result (float * nat) :=
  match rest with
  | [] => Ok st
  | sv :: rest' =>
      t <- couple_term c su sv ;;
      inner_loop c su rest' (add (fst st) t, S (snd st))
  end.

(** The outer loop, over [enumerate(n_tuple)]. *)
Fixpoint outer_loop (c : Continuum) (t : list slot) (st : float * nat)
  : result (float * nat) :=
  match t with
  | [] => Ok st
  | su :: rest =>
      st' <- inner_loop c su rest st ;;
      outer_loop c rest st'
  end.

(** [UnitaryAlignement.disorder]; [scipy.special.binom] returns a numpy
    float, which the assertion compares with the integer
    [num_couples]. *)
Definition UnitaryAlignement_disorder (ua : UnitaryAlignement)
  : result float :=
  st <- outer_loop (ua_continuum ua) (n_tuple ua) (zero, 0) ;;
  let disorder :=
    div (fst st) (of_int (binom (length (n_tuple ua)) 2)) in
  if Nat.eqb (snd st) (binom (length (n_tuple ua)) 2) then Ok disorder
  else Raise AssertionError.

(** ** Alignements and the set-partition test *)

(** [s == t] on two elements of an n-tuple: a list is equal to a list and
    a tuple to a tuple, component by component; a list is never equal to a
    tuple. *)
Definition sequence_eqb (f g : sequence) : bool :=
  match f, g with
  | PyList, PyList | PyTuple, PyTuple => true
  | _, _ => false
  end.

Definition slot_eqb (s t : slot) : bool :=
  sequence_eqb (form s) (form t)
  && (if annotator_eq_dec (who s) (who t) then true else false)
  && match what s, what t with
     | Some u, Some v => if unit_eq_dec u v then true else false
     | None, None => true
     | _, _ => false
     end.

(** [[annotator, unit] in unitary_alignement.n_tuple]: the list
    [[annotator, unit]] is compared with each element in turn. *)
Definition in_n_tuple (a : annotator) (u : unit) (ua : UnitaryAlignement)
  : bool :=
  existsb (slot_eqb (mkSlot PyList a (Some u))) (n_tuple ua).

(** The loop over the unitary alignements that counts [found]. *)
Fixpoint count_found (a : annotator) (u : unit)
  (uas : list UnitaryAlignement) (found : nat) : nat :=
  match uas with
  | [] => found
  | ua :: rest =>
      count_found a u rest (if in_n_tuple a u ua then S found else found)
  end.

(** The loop over the units of one annotator. *)
Fixpoint test_units (a : annotator) (units : list unit)
  (uas : list UnitaryAlignement) : result Datatypes.unit :=
  match units with
  | [] => Ok tt
  | u :: rest =>
      let found := count_found a u uas 0 in
      if Nat.eqb found 0 then
        Raise (SetPartitionError (not_in_the_set a u))
      else if Nat.ltb 1 found then
        Raise (SetPartitionError (assigned_twice a u))
      else test_units a rest uas
  end.

(** The loop over the annotators. *)
Fixpoint test_annotators (c : Continuum) (annotators : list annotator)
  (uas : list UnitaryAlignement) : result Datatypes.unit :=
  match annotators with
  | [] => Ok tt
  | a :: rest =>
      an <- getitem c a ;;
      _ <- test_units a (itersegments an) uas ;;
      test_annotators c rest uas
  end.

(** The set-partition tests of lines 157-170 (and 212-225). *)
Definition set_partition_tests (c : Continuum)
  (uas : list UnitaryAlignement) : result Datatypes.unit :=
  test_annotators c (iterannotators c) uas.

Record Alignement : Type := mkAlignement {
  continuum : Continuum;
  set_unitary_alignments : list UnitaryAlignement
}.

(** [Alignement.__init__]. *)
Definition Alignement_init (c : Continuum) (uas : list UnitaryAlignement)
  : result Alignement :=
  _ <- set_partition_tests c uas ;;
  Ok (mkAlignement c uas).

(** The accumulation [disorder += unitary_alignement.disorder]. *)
Fixpoint accumulate (uas : list UnitaryAlignement) (disorder : float)
  : result float :=
  match uas with
  | [] => Ok disorder
  | ua :: rest =>
      d <- UnitaryAlignement_disorder ua ;;
      accumulate rest (add disorder d)
  end.

(** The mean of lines 185-188 and 297-300, where [num_alignements] is the
    length of the list: with no unitary alignement the sum is still the
    Python float [0.0], and its division by the integer [0] raises; with
    one or more the sum is divided by their number. *)
Definition mean_disorder (uas : list UnitaryAlignement) : result float :=
  disorder <- accumulate uas zero ;;
  if Nat.eqb (length uas) 0 then Raise ZeroDivisionError
  else Ok (div disorder (of_int (length uas))).

(** [Alignement.disorder]. *)
Definition Alignement_disorder (al : Alignement) : result float :=
  mean_disorder (set_unitary_alignments al).

(** ** The best alignement *)

(** The solver behind [prob.solve()]: from the objective coefficients [d]
    and the constraints matrix [A] to [x.value], which is [None] when the
    solver found no solution; the call can also raise. *)
Variable solve :
  list float -> list (list float) -> result (option (list float)).

(** [itertools.product] of a list of lists: the leftmost list varies
    slowest. *)
Fixpoint product {A : Type} (ls : list (list A)) : list (list A) :=
  match ls with
  | [] => [[]]
  | l :: rest => flat_map (fun x => map (cons x) (product rest)) l
  end.

(** Lines 232-237: for each annotator the lists [[annotator, el]] of its
    units, then of [None]. *)
Definition set_of_possible_segments (c : Continuum)
  : result (list (list slot)) :=
  mapM (fun a =>
          an <- getitem c a ;;
          Ok (map (fun el => mkSlot PyList a el)
                (map Some (itersegments an) ++ [None])))
       (iterannotators c).

(** [len(self.continuum) * DELTA_EMPTY]. *)
Definition bound (c : Continuum) : float :=
  mul (of_int (len c)) DELTA_EMPTY.

(** Lines 241-250: build each unitary alignement and keep it when its
    disorder is below the bound. *)
Fixpoint keep_below_bound (c : Continuum) (tuples : list (list slot))
  : result (list UnitaryAlignement) :=
  match tuples with
  | [] => Ok []
  | t :: rest =>
      ua <- UnitaryAlignement_init c t ;;
      disorder <- UnitaryAlignement_disorder ua ;;
      kept <- keep_below_bound c rest ;;
      Ok (if less disorder (bound c) then ua :: kept else kept)
  end.

Definition set_of_possible_unitary_alignements (c : Continuum)
  : result (list UnitaryAlignement) :=
  segments <- set_of_possible_segments c ;;
  keep_below_bound c (product segments).

(** One row of the constraints matrix. *)
Definition constraints_row (a : annotator) (u : unit)
  (uas : list UnitaryAlignement) : list float :=
  map (fun ua => if in_n_tuple a u ua then one else zero) uas.

(** Lines 262-273: one row per couple (annotator, unit). *)
Definition constraints_matrix (c : Continuum)
  (uas : list UnitaryAlignement) : result (list (list float)) :=
  rows <- mapM (fun a =>
                  an <- getitem c a ;;
                  Ok (map (fun u => constraints_row a u uas)
                        (itersegments an)))
               (iterannotators c) ;;
  Ok (concat rows).

(** Lines 282-285: the unitary alignements whose variable is above 0.9,
    [x.value > 0.9] being [0.9 < x.value] entry by entry. *)
Fixpoint choose (uas : list UnitaryAlignement) (idx : nat)
  (value : list float) : result (list UnitaryAlignement) :=
  match value with
  | [] => Ok []
  | v :: rest =>
      if less nine_tenths v then
        match nth_error uas idx with
        | Some ua =>
            chosen <- choose uas (S idx) rest ;;
            Ok (ua :: chosen)
        | None => Raise IndexError
        end
      else choose uas (S idx) rest
  end.

(** [BestAlignement.get_unitary_alignements_best]. *)
Definition get_unitary_alignements_best (c : Continuum)
  : result (list UnitaryAlignement) :=
  uas <- set_of_possible_unitary_alignements c ;;
  d <- mapM UnitaryAlignement_disorder uas ;;
  A <- constraints_matrix c uas ;;
  value <- solve d A ;;
  match value with
  | None => Raise TypeError
  | Some value => choose uas 0 value
  end.

Record BestAlignement : Type := mkBestAlignement {
  best_continuum : Continuum;
  set_unitary_alignements : list UnitaryAlignement
}.

(** [BestAlignement.__init__]. *)
Definition BestAlignement_init (c : Continuum) : result BestAlignement :=
  uas <- get_unitary_alignements_best c ;;
  _ <- set_partition_tests c uas ;;
  Ok (mkBestAlignement c uas).

(** [BestAlignement.disorder]. *)
Definition BestAlignement_disorder (b : BestAlignement) : result float :=
  mean_disorder (set_unitary_alignements b).

(** ** The specification's reading of the disorder of a grouping *)

(** The payload of a unit of an annotator, when the timeline has it. *)
Definition payload_of (c : Continuum) (a : annotator) (u : unit)
  : option payload :=
  match getitem c a with
  | Ok an =>
      match getlabel an u with
      | Ok p => Some p
      | Raise _ => None
      end
  | Raise _ => None
  end.

(** The cost of two slots: the gap cost when either is a gap, otherwise
    the distance between the two units with their payloads; undefined
    when a unit is not a unit of the timeline. *)
Definition slot_cost (c : Continuum) (s t : slot) : option float :=
  match what s, what t with
  | Some u, Some v =>
      match payload_of c (who s) u, payload_of c (who t) v with
      | Some p, Some q => Some (dissimilarity (u, v) (p, q))
      | _, _ => None
      end
  | _, _ => Some DELTA_EMPTY
  end.

(** The distance function is symmetric in its two units. *)
Definition symmetric : Prop :=
  forall u v p q, dissimilarity (u, v) (p, q) = dissimilarity (v, u) (q, p).

(** The unordered pairs of distinct positions below [n]. *)
Definition index_pairs (n : nat) : list (nat * nat) :=
  filter (fun ij => Nat.ltb (fst ij) (snd ij))
    (list_prod (seq 0 n) (seq 0 n)).

Definition cost_at (c : Continuum) (t : list slot) (ij : nat * nat)
  : option float :=
  match nth_error t (fst ij), nth_error t (snd ij) with
  | Some s, Some s' => slot_cost c s s'
  | _, _ => None
  end.

(** The couples the two loops of the source visit, in their order. *)
Fixpoint couples (t : list slot) : list (slot * slot) :=
  match t with
  | [] => []
  | s :: rest => map (pair s) rest ++ couples rest
  end.

(** The costs of the couples of a tuple, in the order of the loops. *)
Definition costs (c : Continuum) (t : list slot) : list (option float) :=
  map (fun p => slot_cost c (fst p) (snd p)) (couples t).

(** The values of a list of costs, when all are defined. *)
Fixpoint defined (l : list (option float)) : option (list float) :=
  match l with
  | [] => Some []
  | Some x :: l' =>
      match defined l' with
      | Some xs => Some (x :: xs)
      | None => None
      end
  | None :: _ => None
  end.

(** The numbers of a list added one after the other to [0.0]. *)
Definition running_sum (l : list float) : float := fold_left add l zero.

(** The units of an annotator. *)
Definition units_of (c : Continuum) (a : annotator) : list unit :=
  match getitem c a with
  | Ok an => itersegments an
  | Raise _ => []
  end.

(** The couples (annotator, unit) of the timeline, in the order the
    set-partition tests visit them. *)
Definition timeline_pairs (c : Continuum) : list (annotator * unit) :=
  flat_map (fun a => map (pair a) (units_of c a)) (iterannotators c).

(** How many of the groupings hold a couple, as the list
    [[annotator, unit]]. *)
Definition references (p : annotator * unit)
  (uas : list UnitaryAlignement) : nat :=
  length (filter (in_n_tuple (fst p) (snd p)) uas).

(** The exact-partition invariant. *)
Definition exact_partition (c : Continuum)
  (uas : list UnitaryAlignement) : Prop :=
  forall p, In p (timeline_pairs c) -> references p uas = 1.

(** The set-partition tests read as one loop over the couples of the
    timeline. *)
Fixpoint test_pairs (ps : list (annotator * unit))
  (uas : list UnitaryAlignement) : result Datatypes.unit :=
  match ps with
  | [] => Ok tt
  | p :: rest =>
      if Nat.eqb (references p uas) 0 then
        Raise (SetPartitionError (not_in_the_set (fst p) (snd p)))
      else if Nat.ltb 1 (references p uas) then
        Raise (SetPartitionError (assigned_twice (fst p) (snd p)))
      else test_pairs rest uas
  end.

(** ** The specification's reading of candidate generation *)

(** The slot-domain of an annotator: its units, then the gap. *)
Definition slot_domain (c : Continuum) (a : annotator) : list slot :=
  map (mkSlot PyList a) (map Some (units_of c a) ++ [None]).

Definition slot_domains (c : Continuum) : list (list slot) :=
  map (slot_domain c) (iterannotators c).

(** The candidate groupings: the Cartesian product of the slot-domains. *)
Definition candidates (c : Continuum) : list UnitaryAlignement :=
  map (mkUnitaryAlignement c) (product (slot_domains c)).

(** The disorder of the grouping is strictly below the bound. *)
Definition below_bound (c : Continuum) (ua : UnitaryAlignement) : bool :=
  match UnitaryAlignement_disorder ua with
  | Ok d => less d (bound c)
  | Raise _ => false
  end.

(** The sub-collection picked by a list of booleans. *)
Fixpoint select {A : Type} (mask : list bool) (l : list A) : list A :=
  match mask, l with
  | b :: mask', x :: l' =>
      if b then x :: select mask' l' else select mask' l'
  | _, _ => []
  end.

(** The invariant of a slot of a candidate grouping: a two-element list
    that holds a gap, or a unit of the annotator of the slot. *)
Definition valid_slot (c : Continuum) (s : slot) : Prop :=
  form s = PyList
  /\ match what s with
     | Some u => In u (units_of c (who s))
     | None => True
     end.

(** ** Trading a grouping for groupings of a single unit *)

(** The slot of the same annotator left empty. *)
Definition gap (s : slot) : slot := mkSlot PyList (who s) None.

(** The groupings that hold one unit of [t] and gaps elsewhere. *)
Fixpoint singletons (t : list slot) : list (list slot) :=
  match t with
  | [] => []
  | s :: rest =>
      let others := map (cons (gap s)) (singletons rest) in
      match what s with
      | Some _ => (s :: map gap rest) :: others
      | None => others
      end
  end.

Definition is_unit (s : slot) : bool :=
  match what s with
  | Some _ => true
  | None => false
  end.

Definition has_unit (t : list slot) : bool := existsb is_unit t.

(** How many slots of a tuple hold a couple. *)
Definition occurrences (p : annotator * unit) (t : list slot) : nat :=
  length (filter (slot_eqb (mkSlot PyList (fst p) (Some (snd p)))) t).

(** The grouping that holds one couple of the timeline and gaps for the
    other annotators. *)
Definition alone (c : Continuum) (p : annotator * unit) : list slot :=
  map (fun b => mkSlot PyList b
                  (if annotator_eq_dec (fst p) b then Some (snd p)
                   else None))
    (iterannotators c).

End Model.

Arguments Ok {annotator unit A} x.
Arguments Raise {annotator unit A} e.
Arguments KeyError {annotator unit}.
Arguments AssertionError {annotator unit}.
Arguments ZeroDivisionError {annotator unit}.
Arguments TypeError {annotator unit}.
Arguments IndexError {annotator unit}.
Arguments ValueError {annotator unit}.
Arguments SolverError {annotator unit}.
Arguments or_KeyError {annotator unit A} o.
Arguments getlabel [annotator unit payload] unit_eq_dec an u.
Arguments gap {annotator unit} s.
Arguments is_unit {annotator unit} s.
Arguments singletons {annotator unit} t.
Arguments has_unit {annotator unit} t.

(** ** The model at the exact floats *)

(** The functions of the model at the exact floats, for a distance
    function [d] and a gap cost [g] with finite values. *)
Module Exact.

Abbreviation couple_term adec udec d g :=
  (couple_term adec udec (fun uv pq => Fin (d uv pq)) (Fin g)).
Abbreviation inner_loop adec udec d g :=
  (inner_loop adec udec fadd (fun uv pq => Fin (d uv pq)) (Fin g)).
Abbreviation outer_loop adec udec d g :=
  (outer_loop adec udec fadd (fun uv pq => Fin (d uv pq)) (Fin g)).
Abbreviation UnitaryAlignement_disorder adec udec d g :=
  (UnitaryAlignement_disorder adec udec (Fin 0%Qc) fadd fdiv
     (fun n : nat => Fin (of_nat n)) (fun uv pq => Fin (d uv pq)) (Fin g)).
Abbreviation accumulate adec udec d g :=
  (accumulate adec udec (Fin 0%Qc) fadd fdiv
     (fun n : nat => Fin (of_nat n)) (fun uv pq => Fin (d uv pq)) (Fin g)).
Abbreviation mean_disorder adec udec d g :=
  (mean_disorder adec udec (Fin 0%Qc) fadd fdiv
     (fun n : nat => Fin (of_nat n)) (fun uv pq => Fin (d uv pq)) (Fin g)).
Abbreviation Alignement_disorder adec udec d g :=
  (Alignement_disorder adec udec (Fin 0%Qc) fadd fdiv
     (fun n : nat => Fin (of_nat n)) (fun uv pq => Fin (d uv pq)) (Fin g)).
Abbreviation bound g :=
  (bound fmul (fun n : nat => Fin (of_nat n)) (Fin g)).
Abbreviation below_bound adec udec d g :=
  (below_bound adec udec (Fin 0%Qc) fadd fmul fdiv flt
     (fun n : nat => Fin (of_nat n)) (fun uv pq => Fin (d uv pq)) (Fin g)).
Abbreviation keep_below_bound adec udec d g :=
  (keep_below_bound adec udec (Fin 0%Qc) fadd fmul fdiv flt
     (fun n : nat => Fin (of_nat n)) (fun uv pq => Fin (d uv pq)) (Fin g)).
Abbreviation set_of_possible_unitary_alignements adec udec d g :=
  (set_of_possible_unitary_alignements adec udec (Fin 0%Qc) fadd fmul fdiv
     flt (fun n : nat => Fin (of_nat n)) (fun uv pq => Fin (d uv pq))
     (Fin g)).
Abbreviation constraints_row adec udec :=
  (constraints_row adec udec (Fin 0%Qc) (Fin 1%Qc)).
Abbreviation constraints_matrix adec udec :=
  (constraints_matrix adec udec (Fin 0%Qc) (Fin 1%Qc)).
Abbreviation choose := (choose (Fin (Q2Qc (9 # 10))) flt).
Abbreviation get_unitary_alignements_best adec udec d g solve :=
  (get_unitary_alignements_best adec udec (Fin 0%Qc) (Fin 1%Qc)
     (Fin (Q2Qc (9 # 10))) fadd fmul fdiv flt
     (fun n : nat => Fin (of_nat n)) (fun uv pq => Fin (d uv pq)) (Fin g)
     solve).
Abbreviation BestAlignement_init adec udec d g solve :=
  (BestAlignement_init adec udec (Fin 0%Qc) (Fin 1%Qc)
     (Fin (Q2Qc (9 # 10))) fadd fmul fdiv flt
     (fun n : nat => Fin (of_nat n)) (fun uv pq => Fin (d uv pq)) (Fin g)
     solve).
Abbreviation BestAlignement_disorder adec udec d g :=
  (BestAlignement_disorder adec udec (Fin 0%Qc) fadd fdiv
     (fun n : nat => Fin (of_nat n)) (fun uv pq => Fin (d uv pq)) (Fin g)).

End Exact.

(** ** The exact readings of the disorder and of the program *)

Section Reading.

Variables annotator unit payload : Type.
Variable annotator_eq_dec : forall a b : annotator, {a = b} + {a <> b}.
Variable unit_eq_dec : forall u v : unit, {u = v} + {u <> v}.
Variable dissimilarity : unit * unit -> payload * payload -> Qc.
Variable DELTA_EMPTY : Qc.

Local Abbreviation Continuum := (Continuum annotator unit payload).
Local Abbreviation UnitaryAlignement :=
  (UnitaryAlignement annotator unit payload).
Local Abbreviation slot := (slot annotator unit).

Definition sum_costs (l : list (option Qc)) : option Qc :=
  fold_right
    (fun o acc =>
       match o, acc with
       | Some a, Some b => Some (a + b)%Qc
       | _, _ => None
       end)
    (Some 0%Qc) l.

(** The sum of the costs over all unordered pairs of distinct slots. *)
Definition pairwise_sum (c : Continuum) (t : list slot) : option Qc :=
  sum_costs
    (map (cost_at annotator_eq_dec unit_eq_dec dissimilarity DELTA_EMPTY c t)
       (index_pairs (length t))).

(** That sum divided by C(n,2). *)
Definition mean_pairwise_cost (c : Continuum) (t : list slot)
  : option Qc :=
  match pairwise_sum c t with
  | Some s => Some (s / of_nat (binom (length t) 2))%Qc
  | None => None
  end.

(** The sum of a list of disorders. *)
Definition total (ds : list npfloat) : npfloat :=
  fold_right fadd (Fin 0%Qc) ds.

(** The disorder of a grouping as a float, [nan] where the source
    raises. *)
Definition disorder_value (ua : UnitaryAlignement) : npfloat :=
  match Exact.UnitaryAlignement_disorder annotator_eq_dec unit_eq_dec
          dissimilarity DELTA_EMPTY ua with
  | Ok d => d
  | Raise _ => NaN
  end.

(** The sum of the disorders of a collection of groupings. *)
Definition total_disorder (uas : list UnitaryAlignement) : npfloat :=
  total (map disorder_value uas).

(** The row of a couple in the constraints matrix, as rationals: 1 at
    the groupings that hold the couple, 0 elsewhere. *)
Definition incidence (p : annotator * unit) (uas : list UnitaryAlignement)
  : list Qc :=
  map (fun ua =>
         if in_n_tuple annotator_eq_dec unit_eq_dec (fst p) (snd p) ua
         then 1%Qc else 0%Qc) uas.

(** The rows of the constraints matrix, as rationals. *)
Definition constraints_rows (c : Continuum)
  (uas : list UnitaryAlignement) : list (list Qc) :=
  map (fun p => incidence p uas) (timeline_pairs annotator_eq_dec c).

(** A result is the finite float [q]. *)
Definition returns (r : result annotator unit npfloat) (q : Qc) : bool :=
  match r with
  | Ok (Fin a) => Qc_eqb a q
  | _ => false
  end.

(** A grouping below the bound is kept as it is, unless it is all gaps; a
    grouping that the pruning discards is traded for the groupings of its
    units taken alone. *)
Definition repair (c : Continuum) (ua : UnitaryAlignement)
  : list UnitaryAlignement :=
  if Exact.below_bound annotator_eq_dec unit_eq_dec dissimilarity
       DELTA_EMPTY c ua then
    if has_unit (n_tuple ua) then [ua] else []
  else map (mkUnitaryAlignement c) (singletons (n_tuple ua)).

(** The disorder of a grouping as a rational, when it is finite. *)
Definition cost (ua : UnitaryAlignement) : Qc :=
  match disorder_value ua with
  | Fin q => q
  | _ => 0%Qc
  end.

Definition sum_cost (uas : list UnitaryAlignement) : Qc :=
  fold_right Qcplus 0%Qc (map cost uas).

End Reading.

End Pygamma.
Import Pygamma.

(** ** The integer program *)

(** What the solver is asked for: a vector of zeros and ones, one per
    candidate, with every row of the constraints matrix summing to one over
    the selected columns, of least objective value. *)
Module Program.

Definition dot (row x : list Qc) : Qc :=
  fold_right Qcplus 0%Qc (map (fun p => (fst p * snd p)%Qc) (combine row x)).

Definition objective (d : list npfloat) (x : list Qc) : npfloat :=
  total (map (fun p => fmul (fst p) (Fin (snd p))) (combine d x)).

Definition binary (x : list Qc) : bool :=
  forallb (fun v => Qc_eqb v 0%Qc || Qc_eqb v 1%Qc) x.

Definition feasible (A : list (list Qc)) (x : list Qc) : bool :=
  binary x && forallb (fun row => Qc_eqb (dot row x) 1%Qc) A.

(** The zero-one vector of a list of booleans. *)
Definition indicator (mask : list bool) : list Qc :=
  map (fun b : bool => if b then 1%Qc else 0%Qc) mask.

Definition optimal (d : list npfloat) (A : list (list Qc)) (x : list Qc)
  : Prop :=
  length x = length d
  /\ feasible A x = true
  /\ forall y, length y = length d -> feasible A y = true ->
               fle (objective d x) (objective d y) = true.

(** The value of the solver, an array of floats, holds an optimal
    solution. *)
Definition solution (d : list npfloat) (A : list (list Qc))
  (value : list npfloat) : Prop :=
  exists x, value = map Fin x /\ optimal d A x.

(** The matrix as the solver receives it. *)
Definition matrix (A : list (list Qc)) : list (list npfloat) :=
  map (map Fin) A.

End Program.

(** ** Small timelines *)

(** Two annotators with one unit each; the distance between two units is
    the sum of the gaps between their starts and between their ends, in
    tenths. *)
Module Example.

Local Open Scope string_scope.

Definition segment : Type := (Z * Z)%type.

Definition segment_eq_dec (u v : segment) : {u = v} + {u <> v}.
Proof. decide equality; apply Z.eq_dec. Defined.

(** The number of tenths between two units. *)
Definition tenths (uv : segment * segment) : Z :=
  Z.abs (fst (fst uv) - fst (snd uv)) + Z.abs (snd (fst uv) - snd (snd uv)).

Definition positional (uv : segment * segment) (_ : string * string)
  : Qc :=
  Q2Qc (tenths uv # 10).

Definition u1 : segment := (0, 10)%Z.
Definition v1 : segment := (5, 20)%Z.

Definition timeline : Continuum string segment string :=
  [("A", [(u1, "x")]); ("B", [(v1, "y")])].

(** A timeline with a single annotator. *)
Definition solo : Continuum string segment string :=
  [("A", [(u1, "x")])].

(** A timeline with an annotator and no unit. *)
Definition blank : Continuum string segment string :=
  [("A", [])].

Definition grouping (t : list (slot string segment))
  : UnitaryAlignement string segment string :=
  mkUnitaryAlignement timeline t.

Definition both :=
  grouping [mkSlot PyList "A" (Some u1); mkSlot PyList "B" (Some v1)].
Definition only_A :=
  grouping [mkSlot PyList "A" (Some u1); mkSlot PyList "B" None].
Definition only_B :=
  grouping [mkSlot PyList "A" None; mkSlot PyList "B" (Some v1)].
Definition gaps :=
  grouping [mkSlot PyList "A" None; mkSlot PyList "B" None].

(** The grouping of the two units, its couples held as tuples. *)
Definition both_as_tuples :=
  grouping [mkSlot PyTuple "A" (Some u1); mkSlot PyTuple "B" (Some v1)].

(** The functions of the model at this timeline's types, at the exact
    floats and for a gap cost [g]. *)
Definition solver : Type :=
  list npfloat -> list (list npfloat) ->
  result string segment (option (list npfloat)).

Definition disorder (g : Qc) :=
  Exact.UnitaryAlignement_disorder string_dec segment_eq_dec positional g.
Definition init :=
  Alignement_init (payload:=string) string_dec segment_eq_dec.
Definition mean (g : Qc) :=
  Exact.Alignement_disorder string_dec segment_eq_dec positional g.
Definition refs :=
  references (payload:=string) string_dec segment_eq_dec.
Definition partition :=
  exact_partition (payload:=string) string_dec segment_eq_dec.
Definition pruned (g : Qc) (c : Continuum string segment string) :=
  filter (Exact.below_bound string_dec segment_eq_dec positional g c)
    (candidates string_dec c).
Definition values (g : Qc) (c : Continuum string segment string) :=
  map (disorder_value string_dec segment_eq_dec positional g) (pruned g c).
Definition rows (g : Qc) (c : Continuum string segment string) :=
  constraints_rows string_dec segment_eq_dec c (pruned g c).
Definition best (g : Qc) (solve : solver) :=
  Exact.BestAlignement_init string_dec segment_eq_dec positional g solve.
Definition best_groupings (g : Qc) (solve : solver) :=
  Exact.get_unitary_alignements_best string_dec segment_eq_dec positional g
    solve.
Definition best_mean (g : Qc) :=
  Exact.BestAlignement_disorder string_dec segment_eq_dec positional g.
Definition sum (g : Qc) :=
  total_disorder string_dec segment_eq_dec positional g.

(** A solver that answers with a fixed value, and one that fails with an
    exception. *)
Definition answer (value : list Qc) : solver :=
  fun _ _ => Ok (Some (map Fin value)).
Definition failing (e : exn string segment) : solver := fun _ _ => Raise e.

(** Three annotators with one unit each, at the distances 0.1 (A and B),
    0.2 (A and C) and 0.3 (B and C), in binary64. *)
Definition a1 : segment := (11, 20)%Z.
Definition b1 : segment := (10, 20)%Z.
Definition c1 : segment := (11, 22)%Z.

Definition trio : Continuum string segment string :=
  [("A", [(a1, "x")]); ("B", [(b1, "y")]); ("C", [(c1, "z")])].

Definition positional64 (uv : segment * segment) (_ : string * string)
  : PrimFloat.float :=
  PrimFloat.div (PrimFloat.of_uint63 (Uint63.of_Z (tenths uv)))
    (Binary64.of_int 10).

(** [UnitaryAlignement.disorder] in binary64, for a gap cost [g]. *)
Definition disorder64 (g : PrimFloat.float) :=
  UnitaryAlignement_disorder string_dec segment_eq_dec
    (Binary64.of_int 0) PrimFloat.add PrimFloat.div Binary64.of_int
    positional64 g.

(** [Alignement.disorder] and the candidate generation in binary64. *)
Definition mean64 (g : PrimFloat.float) :=
  Alignement_disorder string_dec segment_eq_dec
    (Binary64.of_int 0) PrimFloat.add PrimFloat.div Binary64.of_int
    positional64 g.
Definition pruned64 (g : PrimFloat.float) :=
  set_of_possible_unitary_alignements string_dec segment_eq_dec
    (Binary64.of_int 0) PrimFloat.add PrimFloat.mul PrimFloat.div
    PrimFloat.ltb Binary64.of_int positional64 g.

Definition trio_gaps :=
  mkUnitaryAlignement trio
    [mkSlot PyList "A" None; mkSlot PyList "B" None; mkSlot PyList "C" None].
Definition trio_ABC :=
  mkUnitaryAlignement trio
    [mkSlot PyList "A" (Some a1); mkSlot PyList "B" (Some b1);
     mkSlot PyList "C" (Some c1)].
Definition trio_CAB :=
  mkUnitaryAlignement trio
    [mkSlot PyList "C" (Some c1); mkSlot PyList "A" (Some a1);
     mkSlot PyList "B" (Some b1)].

End Example.
(** * Properties *)

(** ** Arithmetic of the float model *)

Section FloatFacts.

Local Open Scope Qc_scope.

Lemma Qc_eqb_eq (a b : Qc) : Qc_eqb a b = true <-> a = b.
Proof.
  unfold Qc_eqb. rewrite Qceq_alt.
  destruct (a ?= b); split; intro H; congruence.
Qed.

Lemma Qc_ltb_lt (a b : Qc) : Qc_ltb a b = true <-> a < b.
Proof.
  unfold Qc_ltb. rewrite Qclt_alt.
  destruct (a ?= b); split; intro H; congruence.
Qed.

Lemma Qc_ltb_ge (a b : Qc) : Qc_ltb a b = false <-> b <= a.
Proof.
  split; intro H.
  - apply Qcnot_lt_le. intro L. apply Qc_ltb_lt in L. congruence.
  - destruct (Qc_ltb a b) eqn:E; [|reflexivity].
    apply Qc_ltb_lt in E. now apply Qcle_not_lt in H.
Qed.

Lemma of_nat_nonneg (n : nat) : 0 <= of_nat n.
Proof.
  induction n as [|n IH]; simpl.
  - apply Qcle_refl.
  - replace 0 with (0 + 0) by ring.
    apply Qcplus_le_compat; [exact IH|]. now unfold Qcle.
Qed.

Lemma of_nat_pos (n : nat) : (0 < n)%nat -> 0 < of_nat n.
Proof.
  destruct n as [|n]; [lia|]. intros _. simpl.
  apply Qclt_le_trans with (0 + 1).
  - now unfold Qclt.
  - apply Qcplus_le_compat; [apply of_nat_nonneg | apply Qcle_refl].
Qed.

Lemma of_nat_neq_0 (n : nat) : (0 < n)%nat -> of_nat n <> 0.
Proof.
  intros H E. apply of_nat_pos in H. rewrite E in H.
  now apply Qclt_not_eq in H.
Qed.

Lemma np_div_nonzero (x : Qc) (n : nat) :
  (0 < n)%nat -> np_div x (of_nat n) = Fin (x / of_nat n).
Proof.
  intro H. unfold np_div.
  destruct (Qc_eqb (of_nat n) 0) eqn:E; [|reflexivity].
  apply Qc_eqb_eq in E. now apply of_nat_neq_0 in H.
Qed.

End FloatFacts.

Lemma fdiv_of_nat (x : npfloat) (n : nat) :
  0 < n -> fdiv x (Fin (of_nat n)) = fdiv_nat x n.
Proof.
  intro H. destruct x as [a| |s]; cbn [fdiv fdiv_nat]; [|reflexivity|].
  - now apply np_div_nonzero.
  - destruct (Qc_ltb (of_nat n) 0%Qc) eqn:E; [|reflexivity].
    apply Qc_ltb_lt in E. exfalso.
    apply (Qclt_not_le _ _ E), of_nat_nonneg.
Qed.

Lemma binom_1 (n : nat) : binom n 1 = n.
Proof.
  induction n as [|n IH]; [reflexivity|].
  simpl. destruct n; simpl in *; lia.
Qed.

Lemma binom_S_2 (n : nat) : binom (S n) 2 = n + binom n 2.
Proof. change (binom (S n) 2) with (binom n 1 + binom n 2). now rewrite binom_1. Qed.

Lemma binom_2_pos (n : nat) : 2 <= n -> 0 < binom n 2.
Proof.
  destruct n as [|[|n]]; try lia. intros _.
  rewrite binom_S_2. lia.
Qed.

(** ** Index pairs and the couples the loops visit *)

Lemma filter_pairs_zero (l : list nat) :
  filter (fun ij : nat * nat => fst ij <? snd ij) (map (pair 0) (map S l))
  = map (pair 0) (map S l).
Proof.
  induction l as [|j l IH]; [reflexivity|].
  simpl. now rewrite IH.
Qed.

Lemma filter_pairs_succ (i : nat) (l : list nat) :
  filter (fun ij : nat * nat => fst ij <? snd ij) (map (pair (S i)) (map S l))
  = map (fun ij => (S (fst ij), S (snd ij)))
      (filter (fun ij : nat * nat => fst ij <? snd ij) (map (pair i) l)).
Proof.
  induction l as [|j l IH]; [reflexivity|].
  simpl. change (S i <? S j) with (i <? j).
  destruct (i <? j); simpl; now rewrite IH.
Qed.

Lemma filter_prod_succ (l1 l2 : list nat) :
  filter (fun ij : nat * nat => fst ij <? snd ij)
    (list_prod (map S l1) (0 :: map S l2))
  = map (fun ij => (S (fst ij), S (snd ij)))
      (filter (fun ij : nat * nat => fst ij <? snd ij) (list_prod l1 l2)).
Proof.
  induction l1 as [|i l1 IH]; [reflexivity|].
  cbn [map list_prod]. rewrite !filter_app, map_app, IH.
  f_equal. cbn [filter fst snd Nat.ltb Nat.leb].
  apply filter_pairs_succ.
Qed.

Lemma index_pairs_S (n : nat) :
  index_pairs (S n)
  = map (pair 0) (map S (seq 0 n))
    ++ map (fun ij => (S (fst ij), S (snd ij))) (index_pairs n).
Proof.
  unfold index_pairs.
  cbn [seq]. rewrite <- seq_shift.
  cbn [list_prod]. rewrite filter_app. f_equal.
  - cbn [map filter fst snd Nat.ltb Nat.leb]. apply filter_pairs_zero.
  - apply filter_prod_succ.
Qed.

Lemma length_index_pairs (n : nat) : length (index_pairs n) = binom n 2.
Proof.
  induction n as [|n IH]; [reflexivity|].
  rewrite index_pairs_S, binom_S_2, length_app, !length_map, length_seq.
  now rewrite IH.
Qed.

Lemma map_nth_error_seq {A B : Type} (f : option A -> B) (l : list A) :
  map (fun j => f (nth_error l j)) (seq 0 (length l))
  = map (fun x => f (Some x)) l.
Proof.
  induction l as [|x l IH]; [reflexivity|].
  cbn [length seq map nth_error]. f_equal.
  rewrite <- seq_shift, map_map. exact IH.
Qed.


(** ** Lists *)

Lemma in_product {A : Type} (ls : list (list A)) (t : list A) :
  In t (product ls) <-> Forall2 (@In A) t ls.
Proof.
  revert t. induction ls as [|l ls IH]; intro t; simpl.
  - split.
    + intros [<-|[]]. constructor.
    + intro H. inversion H. now left.
  - rewrite in_flat_map. split.
    + intros [x [Hx Ht]]. apply in_map_iff in Ht as [t' [<- Ht']].
      constructor; [exact Hx | now apply IH].
    + intro H. inversion H as [|x l' t' ls' Hx Ht']; subst.
      exists x. split; [exact Hx|]. apply in_map. now apply IH.
Qed.

Lemma product_length {A : Type} (ls : list (list A)) (t : list A) :
  In t (product ls) -> length t = length ls.
Proof.
  rewrite in_product. induction 1; simpl; congruence.
Qed.

Lemma select_map {A B : Type} (f : A -> B) (mask : list bool) (l : list A) :
  map f (select mask l) = select mask (map f l).
Proof.
  revert l. induction mask as [|b mask IH]; intros [|x l]; simpl;
    try reflexivity.
  destruct b; simpl; now rewrite IH.
Qed.

Lemma select_nil {A : Type} (mask : list bool) : select mask (@nil A) = [].
Proof. now destruct mask. Qed.

Lemma skipn_nth_error {A : Type} (l : list A) (i : nat) (x : A) :
  nth_error l i = Some x -> skipn i l = x :: skipn (S i) l.
Proof.
  revert i. induction l as [|y l IH]; intros [|i]; simpl; try discriminate.
  - now intros [= ->].
  - intro H. now rewrite (IH i H).
Qed.

Lemma filter_none {A : Type} (f : A -> bool) (l : list A) :
  (forall x, In x l -> f x = false) -> filter f l = [].
Proof.
  induction l as [|x l IH]; intro H; [reflexivity|].
  simpl. rewrite (H x (or_introl eq_refl)).
  apply IH. intros y Hy. apply H. now right.
Qed.


(** ** The model at any floats *)

(** What follows holds whatever the floats and their operations are: in
    binary64 as well as in exact arithmetic. *)
Section Arithmetic.

Variables annotator unit payload : Type.
Variable annotator_eq_dec : forall a b : annotator, {a = b} + {a <> b}.
Variable unit_eq_dec : forall u v : unit, {u = v} + {u <> v}.
Variable float : Type.
Variables zero one nine_tenths : float.
Variables add mul div : float -> float -> float.
Variable less : float -> float -> bool.
Variable of_int : nat -> float.
Variable dissimilarity : unit * unit -> payload * payload -> float.
Variable DELTA_EMPTY : float.

Local Abbreviation Continuum := (Continuum annotator unit payload).
Local Abbreviation UnitaryAlignement :=
  (UnitaryAlignement annotator unit payload).
Local Abbreviation slot := (slot annotator unit).
Local Abbreviation getitem :=
  (getitem (unit:=unit) (payload:=payload) annotator_eq_dec).
Local Abbreviation getlabel :=
  (getlabel (annotator:=annotator) (payload:=payload) unit_eq_dec).
Local Abbreviation payload_of := (payload_of annotator_eq_dec unit_eq_dec).
Local Abbreviation units_of :=
  (units_of (unit:=unit) (payload:=payload) annotator_eq_dec).
Local Abbreviation valid_slot :=
  (valid_slot (unit:=unit) (payload:=payload) annotator_eq_dec).
Local Abbreviation slot_domain :=
  (slot_domain (unit:=unit) (payload:=payload) annotator_eq_dec).
Local Abbreviation slot_domains :=
  (slot_domains (unit:=unit) (payload:=payload) annotator_eq_dec).
Local Abbreviation candidates :=
  (candidates (unit:=unit) (payload:=payload) annotator_eq_dec).
Local Abbreviation timeline_pairs := (timeline_pairs annotator_eq_dec).
Local Abbreviation set_partition_tests :=
  (set_partition_tests annotator_eq_dec unit_eq_dec).
Local Abbreviation Alignement_init :=
  (Alignement_init annotator_eq_dec unit_eq_dec).
Local Abbreviation couple_term :=
  (couple_term annotator_eq_dec unit_eq_dec dissimilarity DELTA_EMPTY).
Local Abbreviation inner_loop :=
  (inner_loop annotator_eq_dec unit_eq_dec add dissimilarity DELTA_EMPTY).
Local Abbreviation outer_loop :=
  (outer_loop annotator_eq_dec unit_eq_dec add dissimilarity DELTA_EMPTY).
Local Abbreviation disorder :=
  (UnitaryAlignement_disorder annotator_eq_dec unit_eq_dec zero add div
     of_int dissimilarity DELTA_EMPTY).
Local Abbreviation slot_cost :=
  (slot_cost annotator_eq_dec unit_eq_dec dissimilarity DELTA_EMPTY).
Local Abbreviation costs :=
  (costs annotator_eq_dec unit_eq_dec dissimilarity DELTA_EMPTY).
Local Abbreviation running_sum := (running_sum zero add).
Local Abbreviation symmetric := (symmetric dissimilarity).
Local Abbreviation accumulate :=
  (accumulate annotator_eq_dec unit_eq_dec zero add div of_int dissimilarity
     DELTA_EMPTY).
Local Abbreviation mean_disorder :=
  (mean_disorder annotator_eq_dec unit_eq_dec zero add div of_int
     dissimilarity DELTA_EMPTY).
Local Abbreviation Alignement_disorder :=
  (Alignement_disorder annotator_eq_dec unit_eq_dec zero add div of_int
     dissimilarity DELTA_EMPTY).
Local Abbreviation below_bound :=
  (below_bound annotator_eq_dec unit_eq_dec zero add mul div less of_int
     dissimilarity DELTA_EMPTY).
Local Abbreviation keep_below_bound :=
  (keep_below_bound annotator_eq_dec unit_eq_dec zero add mul div less
     of_int dissimilarity DELTA_EMPTY).
Local Abbreviation set_of_possible_segments :=
  (set_of_possible_segments (unit:=unit) (payload:=payload)
     annotator_eq_dec).
Local Abbreviation set_of_possible_unitary_alignements :=
  (set_of_possible_unitary_alignements annotator_eq_dec unit_eq_dec zero add
     mul div less of_int dissimilarity DELTA_EMPTY).
Local Abbreviation constraints_row :=
  (constraints_row (payload:=payload) annotator_eq_dec unit_eq_dec zero one).
Local Abbreviation constraints_matrix :=
  (constraints_matrix annotator_eq_dec unit_eq_dec zero one).
Local Abbreviation choose :=
  (@choose annotator unit payload float nine_tenths less).

(** *** The loops of the disorder *)

Lemma getitem_raise (c : Continuum) (a : annotator) (e : exn annotator unit) :
  getitem c a = Raise e -> e = KeyError.
Proof.
  induction c as [|[a' an] c IH]; simpl.
  - congruence.
  - destruct (annotator_eq_dec a a'); [congruence | exact IH].
Qed.

Lemma getlabel_raise (an : Annotation unit payload) (u : unit)
  (e : exn annotator unit) :
  getlabel an u = Raise e -> e = KeyError.
Proof.
  induction an as [|[u' p] an IH]; simpl.
  - congruence.
  - destruct (unit_eq_dec u u'); [congruence | exact IH].
Qed.

Lemma couple_term_cost (c : Continuum) (s t : slot) :
  couple_term c s t = or_KeyError (slot_cost c s t).
Proof.
  unfold Pygamma.couple_term, Pygamma.slot_cost, Pygamma.payload_of.
  destruct (what s) as [u|]; [|reflexivity].
  destruct (what t) as [v|]; [|reflexivity].
  destruct (getitem c (who s)) as [an_u|e] eqn:Eu; simpl.
  2:{ apply getitem_raise in Eu. now subst. }
  destruct (getlabel an_u u) as [p|e] eqn:Ep; simpl.
  2:{ apply getlabel_raise in Ep. now subst. }
  destruct (getitem c (who t)) as [an_v|e] eqn:Ev; simpl.
  2:{ apply getitem_raise in Ev. now subst. }
  destruct (getlabel an_v v) as [q|e] eqn:Eq; simpl.
  2:{ apply getlabel_raise in Eq. now subst. }
  reflexivity.
Qed.

Lemma defined_app (l1 l2 : list (option float)) :
  defined (l1 ++ l2)
  = match defined l1, defined l2 with
    | Some xs, Some ys => Some (xs ++ ys)
    | _, _ => None
    end.
Proof.
  induction l1 as [|[x|] l1 IH]; cbn [app defined].
  - now destruct (defined l2).
  - rewrite IH. destruct (defined l1) as [xs|]; [|reflexivity].
    now destruct (defined l2).
  - reflexivity.
Qed.

Lemma defined_length (l : list (option float)) (xs : list float) :
  defined l = Some xs -> length xs = length l.
Proof.
  revert xs. induction l as [|[x|] l IH]; intros xs; cbn [defined].
  - now intros [= <-].
  - destruct (defined l) as [ys|]; [|discriminate].
    intros [= <-]. cbn [length]. now rewrite (IH ys).
  - discriminate.
Qed.

Lemma defined_none (l : list (option float)) :
  defined l = None <-> In None l.
Proof.
  induction l as [|[x|] l IH]; cbn [defined In].
  - split; [discriminate | intros []].
  - destruct (defined l) as [xs|].
    + split; [discriminate|]. intros [H|H]; [discriminate|].
      apply IH in H. discriminate.
    + split; [intros _; right; now apply IH | reflexivity].
  - split; [intros _; now left | reflexivity].
Qed.

Lemma defined_repeat (x : float) (n : nat) :
  defined (repeat (Some x) n) = Some (repeat x n).
Proof.
  induction n as [|n IH]; [reflexivity|].
  cbn [repeat defined]. now rewrite IH.
Qed.

Lemma defined_perm (l l' : list (option float)) :
  Permutation l l' ->
  match defined l, defined l' with
  | Some xs, Some xs' => Permutation xs xs'
  | None, None => True
  | _, _ => False
  end.
Proof.
  induction 1 as [|o l l' _ IH|o o' l|l l' l'' _ IH1 _ IH2].
  - constructor.
  - cbn [defined]. destruct o as [x|]; [|exact I].
    destruct (defined l) as [xs|], (defined l') as [xs'|];
      try exact IH. now constructor.
  - destruct o as [x|], o' as [y|], (defined l) as [xs|] eqn:E;
      cbn [defined]; rewrite ?E; try exact I. constructor.
  - destruct (defined l) as [xs|], (defined l') as [xs'|],
      (defined l'') as [xs''|]; try contradiction; try exact I.
    now transitivity xs'.
Qed.

Lemma inner_loop_costs (c : Continuum) (s : slot) (rest : list slot)
  (st : float * nat) :
  inner_loop c s rest st
  = match defined (map (slot_cost c s) rest) with
    | Some xs => Ok (fold_left add xs (fst st), snd st + length rest)
    | None => Raise KeyError
    end.
Proof.
  revert st. induction rest as [|t rest IH]; intros [acc k];
    cbn [Pygamma.inner_loop map defined].
  - cbn [fold_left fst snd length]. now rewrite Nat.add_0_r.
  - rewrite couple_term_cost.
    destruct (slot_cost c s t) as [x|]; cbn [or_KeyError bind];
      [|reflexivity].
    rewrite IH. cbn [fst snd].
    destruct (defined (map (slot_cost c s) rest)) as [xs|]; [|reflexivity].
    cbn [fold_left length]. now rewrite Nat.add_succ_r.
Qed.

Lemma outer_loop_costs (c : Continuum) (t : list slot) (st : float * nat) :
  outer_loop c t st
  = match defined (costs c t) with
    | Some xs => Ok (fold_left add xs (fst st), snd st + length (couples t))
    | None => Raise KeyError
    end.
Proof.
  unfold Pygamma.costs.
  revert st. induction t as [|s rest IH]; intros [acc k];
    cbn [Pygamma.outer_loop couples map].
  - cbn [defined fold_left fst snd length]. now rewrite Nat.add_0_r.
  - rewrite inner_loop_costs, map_app, map_map, defined_app.
    cbn [fst snd].
    destruct (defined (map (slot_cost c s) rest)) as [xs|]; cbn [bind];
      [|reflexivity].
    rewrite IH. cbn [fst snd].
    destruct (defined _) as [ys|]; [|reflexivity].
    rewrite fold_left_app, length_app, length_map, Nat.add_assoc.
    reflexivity.
Qed.

Lemma length_couples (t : list slot) :
  length (couples t) = binom (length t) 2.
Proof.
  induction t as [|s rest IH]; [reflexivity|].
  cbn [couples length]. rewrite binom_S_2, length_app, length_map.
  now rewrite IH.
Qed.

Lemma length_costs (c : Continuum) (t : list slot) :
  length (costs c t) = binom (length t) 2.
Proof. unfold Pygamma.costs. now rewrite length_map, length_couples. Qed.

(** The disorder of a grouping is the quotient, by the number of its
    couples, of their costs added one after the other to [0.0] in the
    order of the loops; the assertion never fails. *)
Lemma disorder_costs (ua : UnitaryAlignement) :
  disorder ua
  = match defined (costs (ua_continuum ua) (n_tuple ua)) with
    | Some xs =>
        Ok (div (running_sum xs) (of_int (binom (length (n_tuple ua)) 2)))
    | None => Raise KeyError
    end.
Proof.
  unfold UnitaryAlignement_disorder. rewrite outer_loop_costs.
  destruct (defined _) as [xs|]; cbn [bind]; [|reflexivity].
  cbn [fst snd]. now rewrite length_couples, Nat.eqb_refl.
Qed.

Lemma in_couples (t : list slot) (p : slot * slot) :
  In p (couples t) -> In (fst p) t /\ In (snd p) t.
Proof.
  induction t as [|s rest IH]; simpl; [intros []|].
  rewrite in_app_iff, in_map_iff. intros [[x [<- Hx]]|H]; simpl.
  - auto.
  - destruct (IH H). auto.
Qed.

Lemma costs_const (c : Continuum) (t : list slot) :
  (forall p, In p (couples t) ->
             what (fst p) = None \/ what (snd p) = None) ->
  costs c t = repeat (Some DELTA_EMPTY) (binom (length t) 2).
Proof.
  intro Hgap. rewrite <- length_couples. unfold Pygamma.costs.
  induction (couples t) as [|p l IH]; [reflexivity|].
  cbn [map length repeat]. f_equal.
  - unfold Pygamma.slot_cost.
    destruct (Hgap p (or_introl eq_refl)) as [E|E]; rewrite E;
      [reflexivity | now destruct (what (fst p))].
  - apply IH. intros q Hq. apply Hgap. now right.
Qed.

Lemma gap_costs_disorder (c : Continuum) (t : list slot) :
  (forall p, In p (couples t) ->
             what (fst p) = None \/ what (snd p) = None) ->
  disorder (mkUnitaryAlignement c t)
  = Ok (div (running_sum (repeat DELTA_EMPTY (binom (length t) 2)))
          (of_int (binom (length t) 2))).
Proof.
  intro Hgap. rewrite disorder_costs. cbn [ua_continuum n_tuple].
  now rewrite (costs_const c t Hgap), defined_repeat.
Qed.

(** C6: over n >= 2 annotators the grouping whose every slot is a gap has
    C(n,2) couples, each charged the gap cost; nothing is looked up and
    nothing is raised.  Its disorder is the quotient by C(n,2) of the gap
    cost added C(n,2) times to [0.0]: the gap cost up to the rounding of
    these operations. *)
Theorem all_gap_disorder (ua : UnitaryAlignement) :
  2 <= length (n_tuple ua) ->
  (forall s, In s (n_tuple ua) -> what s = None) ->
  costs (ua_continuum ua) (n_tuple ua)
  = repeat (Some DELTA_EMPTY) (binom (length (n_tuple ua)) 2)
  /\ disorder ua
     = Ok (div (running_sum
                  (repeat DELTA_EMPTY (binom (length (n_tuple ua)) 2)))
             (of_int (binom (length (n_tuple ua)) 2))).
Proof.
  intros _ Hgap.
  assert (H : forall p, In p (couples (n_tuple ua)) ->
                        what (fst p) = None \/ what (snd p) = None).
  { intros p Hp. left. apply Hgap. now apply in_couples in Hp. }
  split; [now apply costs_const|].
  destruct ua as [c t]. now apply gap_costs_disorder.
Qed.

Lemma slot_cost_sym (c : Continuum) (s t : slot) :
  symmetric -> slot_cost c s t = slot_cost c t s.
Proof.
  intro Hsym. unfold Pygamma.slot_cost.
  destruct (what s) as [u|], (what t) as [v|]; try reflexivity.
  destruct (payload_of c (who s) u), (payload_of c (who t) v);
    try reflexivity.
  now rewrite Hsym.
Qed.

Lemma costs_perm (c : Continuum) (t t' : list slot) :
  symmetric ->
  Permutation t t' ->
  Permutation (costs c t) (costs c t').
Proof.
  intros Hsym. unfold Pygamma.costs.
  induction 1 as [|s l l' Hp IH|s s' l|l l' l'' _ IH1 _ IH2].
  - constructor.
  - simpl. rewrite !map_app, !map_map. simpl.
    apply Permutation_app; [|exact IH].
    now apply Permutation_map.
  - simpl. rewrite !map_app, !map_map. simpl.
    rewrite (slot_cost_sym c s' s Hsym).
    constructor.
    rewrite !app_assoc. apply Permutation_app_tail, Permutation_app_comm.
  - now transitivity
      (map (fun p => slot_cost c (fst p) (snd p)) (couples l')).
Qed.

(** C7: when the distance function is symmetric, reordering the slots of
    a grouping reorders the costs of its C(n,2) couples and changes nothing
    else: both disorders raise [KeyError], or they are the quotients by
    C(n,2) of the same costs added to [0.0] in two orders, equal up to the
    rounding of the additions. *)
Theorem disorder_permutation (c : Continuum) (t t' : list slot) :
  symmetric ->
  Permutation t t' ->
  match defined (costs c t), defined (costs c t') with
  | Some xs, Some xs' =>
      Permutation xs xs'
      /\ length xs = binom (length t) 2
      /\ disorder (mkUnitaryAlignement c t)
         = Ok (div (running_sum xs) (of_int (binom (length t) 2)))
      /\ disorder (mkUnitaryAlignement c t')
         = Ok (div (running_sum xs') (of_int (binom (length t) 2)))
  | None, None =>
      disorder (mkUnitaryAlignement c t) = Raise KeyError
      /\ disorder (mkUnitaryAlignement c t') = Raise KeyError
  | _, _ => False
  end.
Proof.
  intros Hsym Hp. rewrite !disorder_costs. cbn [ua_continuum n_tuple].
  rewrite <- (Permutation_length Hp).
  assert (H := defined_perm (costs_perm c Hsym Hp)).
  assert (Hlen := @defined_length (costs c t)).
  rewrite length_costs in Hlen.
  destruct (defined (costs c t)) as [xs|], (defined (costs c t')) as [xs'|];
    try contradiction; auto.
Qed.

Lemma one_unit_couples (t : list slot) (p : slot * slot) :
  length (filter is_unit t) <= 1 ->
  In p (couples t) ->
  what (fst p) = None \/ what (snd p) = None.
Proof.
  revert p. induction t as [|s t IH]; intros p Hone Hp; [destruct Hp|].
  cbn [couples] in Hp. cbn [filter] in Hone.
  apply in_app_iff in Hp as [Hp|Hp].
  - apply in_map_iff in Hp as [s' [<- Hs']]. cbn [fst snd].
    unfold is_unit in Hone at 1.
    destruct (what s) as [u|]; [|now left]. right.
    cbn [length] in Hone.
    destruct (what s') as [v|] eqn:Es'; [|reflexivity].
    assert (Hin : In s' (filter is_unit t)).
    { apply filter_In. split; [exact Hs'|]. unfold is_unit. now rewrite Es'. }
    destruct (filter is_unit t); [destruct Hin | cbn [length] in Hone; lia].
  - apply IH; [|exact Hp].
    destruct (is_unit s); cbn [length] in Hone; lia.
Qed.

(** X9: over at least two slots, a grouping in which at most one slot
    holds a unit has a gap in every couple: nothing is looked up in the
    timeline, the distance function is never called, and the disorder is
    the quotient by C(n,2) of the gap cost added C(n,2) times to [0.0]. *)
Theorem disorder_one_unit (c : Continuum) (t : list slot) :
  2 <= length t ->
  length (filter is_unit t) <= 1 ->
  disorder (mkUnitaryAlignement c t)
  = Ok (div (running_sum (repeat DELTA_EMPTY (binom (length t) 2)))
          (of_int (binom (length t) 2))).
Proof.
  intros _ Hone. apply gap_costs_disorder.
  intros p Hp. now apply (one_unit_couples t).
Qed.

(** *** The mean of the disorders *)

Lemma accumulate_mapM (uas : list UnitaryAlignement) (acc : float) :
  accumulate uas acc
  = bind (mapM disorder uas) (fun ds => Ok (fold_left add ds acc)).
Proof.
  revert acc. induction uas as [|ua uas IH]; intro acc; [reflexivity|].
  cbn [Pygamma.accumulate mapM].
  destruct (disorder ua) as [d|e]; cbn [bind]; [|reflexivity].
  rewrite IH.
  destruct (mapM disorder uas) as [ds|e]; reflexivity.
Qed.

Lemma mean_disorder_sum (uas : list UnitaryAlignement) :
  mean_disorder uas
  = match mapM disorder uas with
    | Ok ds =>
        if length uas =? 0 then Raise ZeroDivisionError
        else Ok (div (running_sum ds) (of_int (length uas)))
    | Raise e => Raise e
    end.
Proof.
  unfold Pygamma.mean_disorder. rewrite accumulate_mapM.
  now destruct (mapM disorder uas) as [ds|e].
Qed.

(** C4: the disorder of a validly constructed alignment with at least one
    grouping is the sum of the disorders of its groupings, added one after
    the other to [0.0], divided by the number of groupings; an exception
    raised by the disorder of a grouping is passed on. *)
Theorem Alignement_disorder_mean (c : Continuum)
  (uas : list UnitaryAlignement) (al : Alignement annotator unit payload) :
  Alignement_init c uas = Ok al ->
  uas <> [] ->
  Alignement_disorder al
  = match mapM disorder uas with
    | Ok ds => Ok (div (fold_left add ds zero) (of_int (length uas)))
    | Raise e => Raise e
    end.
Proof.
  intros Hal Hne. unfold Pygamma.Alignement_init in Hal.
  destruct (set_partition_tests c uas) as [[]|e]; cbn [bind] in Hal;
    [|discriminate].
  injection Hal as <-. unfold Pygamma.Alignement_disorder.
  cbn [set_unitary_alignments]. rewrite mean_disorder_sum.
  destruct uas as [|ua uas]; [contradiction | reflexivity].
Qed.

(** *** Candidate generation and pruning *)

Lemma getitem_in (c : Continuum) (a : annotator) :
  In a (iterannotators c) -> exists an, getitem c a = Ok an.
Proof.
  induction c as [|[a' an] c IH]; simpl; [intros []|].
  intros [->|H].
  - exists an. now destruct (annotator_eq_dec a a).
  - destruct (annotator_eq_dec a a'); [now exists an | now apply IH].
Qed.

Lemma getlabel_in (an : Annotation unit payload) (u : unit) :
  In u (itersegments an) -> exists p, getlabel an u = Ok p.
Proof.
  induction an as [|[u' p] an IH]; simpl; [intros []|].
  intros [->|H].
  - exists p. now destruct (unit_eq_dec u u).
  - destruct (unit_eq_dec u u'); [now exists p | now apply IH].
Qed.

Lemma payload_of_unit (c : Continuum) (a : annotator) (u : unit) :
  In u (units_of c a) -> exists p, payload_of c a u = Some p.
Proof.
  unfold Pygamma.units_of, Pygamma.payload_of.
  destruct (getitem c a) as [an|e]; [|intros []].
  intro H. destruct (getlabel_in an u H) as [p ->]. now exists p.
Qed.

Lemma valid_slot_cost (c : Continuum) (s t : slot) :
  valid_slot c s -> valid_slot c t -> exists q, slot_cost c s t = Some q.
Proof.
  unfold Pygamma.valid_slot, Pygamma.slot_cost.
  intros [_ Hu] [_ Hv].
  destruct (what s) as [u|]; [|eauto].
  destruct (what t) as [v|]; [|eauto].
  destruct (payload_of_unit c (who s) u Hu) as [p ->].
  destruct (payload_of_unit c (who t) v Hv) as [q ->].
  eauto.
Qed.

Lemma defined_some (l : list (option float)) :
  (forall o, In o l -> exists q, o = Some q) ->
  exists xs, defined l = Some xs.
Proof.
  intro H. destruct (defined l) as [xs|] eqn:E; [eauto|].
  apply defined_none in E. destruct (H None E) as [q Hq]. discriminate.
Qed.

Lemma valid_costs (c : Continuum) (t : list slot) :
  Forall (valid_slot c) t -> exists xs, defined (costs c t) = Some xs.
Proof.
  intro H. apply defined_some. unfold Pygamma.costs.
  intros o Ho. apply in_map_iff in Ho as [[s1 s2] [<- Hp]].
  apply in_couples in Hp as [H1 H2]. rewrite Forall_forall in H.
  apply valid_slot_cost; now apply H.
Qed.

Lemma valid_disorder (c : Continuum) (t : list slot) :
  Forall (valid_slot c) t ->
  exists d, disorder (mkUnitaryAlignement c t) = Ok d.
Proof.
  intro H. rewrite disorder_costs. cbn [ua_continuum n_tuple].
  destruct (valid_costs H) as [xs ->]. eauto.
Qed.

Lemma set_of_possible_segments_eq (c : Continuum) :
  set_of_possible_segments c = Ok (slot_domains c).
Proof.
  unfold Pygamma.set_of_possible_segments, Pygamma.slot_domains.
  assert (H : forall a, In a (iterannotators c) -> In a (iterannotators c))
    by auto.
  revert H. generalize (iterannotators c) at 1 3 4.
  induction l as [|a l IH]; intro H; [reflexivity|].
  cbn [mapM map].
  destruct (getitem_in c a (H a (or_introl eq_refl))) as [an Ean].
  rewrite Ean. cbn [bind].
  rewrite IH by (intros b Hb; apply H; now right). cbn [bind].
  unfold Pygamma.slot_domain, Pygamma.units_of. now rewrite Ean.
Qed.

Lemma in_slot_domain (c : Continuum) (a : annotator) (s : slot) :
  In s (slot_domain c a) -> who s = a /\ valid_slot c s.
Proof.
  unfold Pygamma.slot_domain. rewrite in_map_iff.
  intros [el [<- Hel]]. split; [reflexivity|].
  unfold Pygamma.valid_slot. cbn [form who what].
  split; [reflexivity|].
  apply in_app_iff in Hel as [Hel|[<-|[]]]; [|exact I].
  apply in_map_iff in Hel as [u [<- Hu]]. exact Hu.
Qed.

Lemma candidate_valid (c : Continuum) (t : list slot) :
  In t (product (slot_domains c)) ->
  length t = len c /\ Forall (valid_slot c) t.
Proof.
  intro H. split.
  - rewrite (product_length _ _ H). unfold Pygamma.slot_domains.
    unfold iterannotators. now rewrite !length_map.
  - apply in_product in H. unfold Pygamma.slot_domains in H.
    revert H. generalize (iterannotators c). intros l H.
    remember (map (slot_domain c) l) as ds eqn:E. revert l E.
    induction H as [|s d t ds Hs _ IH]; intros l E; [constructor|].
    destruct l as [|a l]; [discriminate|]. injection E as -> ->.
    constructor; [|now apply (IH l)].
    now apply in_slot_domain in Hs.
Qed.

Lemma keep_below_bound_filter (c : Continuum) (ts : list (list slot)) :
  (forall t, In t ts -> length t = len c /\ Forall (valid_slot c) t) ->
  keep_below_bound c ts
  = Ok (filter (below_bound c) (map (mkUnitaryAlignement c) ts)).
Proof.
  induction ts as [|t ts IH]; intro H; [reflexivity|].
  destruct (H t (or_introl eq_refl)) as [Hlen Hvalid].
  cbn [Pygamma.keep_below_bound map filter].
  unfold UnitaryAlignement_init. rewrite Hlen, Nat.eqb_refl. cbn [bind].
  destruct (valid_disorder Hvalid) as [d Hd]. rewrite Hd. cbn [bind].
  rewrite IH by (intros; apply H; now right). cbn [bind].
  replace (below_bound c (mkUnitaryAlignement c t))
    with (less d (bound mul of_int DELTA_EMPTY c))
    by (unfold Pygamma.below_bound; now rewrite Hd).
  reflexivity.
Qed.

Lemma set_of_possible_unitary_alignements_eq (c : Continuum) :
  set_of_possible_unitary_alignements c
  = Ok (filter (below_bound c) (candidates c)).
Proof.
  unfold Pygamma.set_of_possible_unitary_alignements.
  rewrite set_of_possible_segments_eq. cbn [bind].
  apply keep_below_bound_filter. intros t. apply candidate_valid.
Qed.

Lemma domain_annotators (c : Continuum) (l : list annotator)
  (t : list slot) :
  Forall2 (@In slot) t (map (slot_domain c) l) -> map (@who _ _) t = l.
Proof.
  revert t. induction l as [|a l IH]; intros t H; inversion H; subst;
    [reflexivity|].
  cbn [map]. f_equal; [|now apply IH].
  eapply in_slot_domain; eassumption.
Qed.

Lemma candidate_annotators (c : Continuum) (t : list slot) :
  In t (product (slot_domains c)) -> map (@who _ _) t = iterannotators c.
Proof. intro H. apply in_product in H. now apply domain_annotators in H. Qed.

Lemma candidate_tuple (c : Continuum) (ua : UnitaryAlignement) :
  In ua (candidates c) ->
  ua = mkUnitaryAlignement c (n_tuple ua)
  /\ In (n_tuple ua) (product (slot_domains c)).
Proof.
  unfold Pygamma.candidates. intro H.
  apply in_map_iff in H as [t [<- Ht]]. now split.
Qed.

Lemma valid_in_domains (c : Continuum) (t : list slot) :
  Forall (valid_slot c) t ->
  Forall2 (@In slot) t (map (slot_domain c) (map (@who _ _) t)).
Proof.
  induction 1 as [|[f a o] t Hs _ IH]; cbn [map]; constructor; [|exact IH].
  unfold Pygamma.slot_domain. cbn [who].
  unfold Pygamma.valid_slot in Hs. cbn [form who what] in Hs.
  destruct Hs as [-> Hs]. apply in_map.
  apply in_or_app. destruct o as [u|].
  - left. now apply in_map.
  - right. now left.
Qed.

(** The candidates are the tuples with one two-element list per annotator,
    in the order of the timeline, each holding a unit of that annotator or
    [None]. *)
Lemma in_candidates (c : Continuum) (ua : UnitaryAlignement) :
  In ua (candidates c) <->
  ua_continuum ua = c
  /\ map (@who _ _) (n_tuple ua) = iterannotators c
  /\ Forall (valid_slot c) (n_tuple ua).
Proof.
  split.
  - intro H. apply candidate_tuple in H as [E Ht].
    split; [now rewrite E|]. split.
    + now apply candidate_annotators.
    + now apply candidate_valid in Ht.
  - intros [Ec [Ha Hv]]. destruct ua as [c' t]. cbn in Ec, Ha, Hv.
    subst c'. unfold Pygamma.candidates. apply in_map.
    apply in_product. unfold Pygamma.slot_domains. rewrite <- Ha.
    now apply valid_in_domains.
Qed.

(** C5: candidate generation raises nothing and returns exactly the
    tuples of the Cartesian product of the slot-domains (one slot per
    annotator, holding one of its units or a gap) whose disorder is
    strictly below [number of annotators * gap cost]: every such tuple has a
    disorder, one below the bound is kept, and one whose disorder is not
    below it, greater or equal or [nan], is discarded. *)
Theorem pruning_bound (c : Continuum) :
  exists kept,
    set_of_possible_unitary_alignements c = Ok kept
    /\ (forall ua,
          ua_continuum ua = c ->
          map (@who _ _) (n_tuple ua) = iterannotators c ->
          Forall (valid_slot c) (n_tuple ua) ->
          exists d,
            disorder ua = Ok d
            /\ (In ua kept <->
                less d (mul (of_int (len c)) DELTA_EMPTY) = true))
    /\ (forall ua,
          In ua kept ->
          (ua_continuum ua = c
           /\ map (@who _ _) (n_tuple ua) = iterannotators c
           /\ Forall (valid_slot c) (n_tuple ua))
          /\ exists d,
               disorder ua = Ok d
               /\ less d (mul (of_int (len c)) DELTA_EMPTY) = true).
Proof.
  exists (filter (below_bound c) (candidates c)).
  split; [apply set_of_possible_unitary_alignements_eq|].
  assert (Hkept : forall ua d,
             In ua (candidates c) -> disorder ua = Ok d ->
             (In ua (filter (below_bound c) (candidates c)) <->
              less d (mul (of_int (len c)) DELTA_EMPTY) = true)).
  { intros ua d Hin Hd. rewrite filter_In.
    unfold Pygamma.below_bound, Pygamma.bound. rewrite Hd.
    split; [now intros [_ H] | now split]. }
  split.
  - intros ua Hc Ha Hv.
    assert (Hin : In ua (candidates c)) by now apply in_candidates.
    destruct ua as [c' t]. cbn [ua_continuum n_tuple] in *. subst c'.
    destruct (valid_disorder Hv) as [d Hd].
    exists d. split; [exact Hd | now apply Hkept].
  - intros ua Hua.
    assert (Hin : In ua (candidates c)) by now apply filter_In in Hua.
    split; [now apply in_candidates|].
    apply filter_In in Hua as [_ Hb]. unfold Pygamma.below_bound in Hb.
    destruct (disorder ua) as [d|e]; [|discriminate].
    exists d. split; [reflexivity | exact Hb].
Qed.

(** *** The constraints matrix and the selection *)

Lemma constraints_matrix_rows (c : Continuum)
  (uas : list UnitaryAlignement) :
  constraints_matrix c uas
  = Ok (map (fun p => constraints_row (fst p) (snd p) uas)
          (timeline_pairs c)).
Proof.
  unfold Pygamma.constraints_matrix, Pygamma.timeline_pairs.
  assert (H : forall a, In a (iterannotators c) -> In a (iterannotators c))
    by auto.
  revert H. generalize (iterannotators c) at 1 3 4.
  induction l as [|a l IH]; intro H; [reflexivity|].
  cbn [mapM flat_map]. unfold Pygamma.units_of at 1.
  destruct (getitem_in c a (H a (or_introl eq_refl))) as [an ->].
  cbn [bind].
  specialize (IH (fun b Hb => H b (or_intror Hb))).
  destruct (mapM _ l) as [rows|e]; cbn [bind] in *; [|discriminate].
  injection IH as IH. cbn [concat]. rewrite IH, map_app, map_map.
  reflexivity.
Qed.

Lemma choose_select (uas : list UnitaryAlignement) (idx : nat)
  (value : list float) (chosen : list UnitaryAlignement) :
  choose uas idx value = Ok chosen ->
  chosen = select (map (less nine_tenths) value) (skipn idx uas).
Proof.
  revert idx chosen.
  induction value as [|v value IH]; intros idx chosen; cbn [Pygamma.choose map].
  - intros [= <-]. reflexivity.
  - destruct (less nine_tenths v) eqn:Ev.
    + destruct (nth_error uas idx) as [ua|] eqn:En; [|discriminate].
      destruct (choose uas (S idx) value) as [rest|e] eqn:Ec;
        cbn [bind]; [|discriminate].
      intros [= <-]. rewrite (skipn_nth_error _ _ En). cbn [select].
      now rewrite (IH _ _ Ec).
    + intro H. rewrite (IH _ _ H).
      destruct (nth_error uas idx) as [ua|] eqn:En.
      * now rewrite (skipn_nth_error _ _ En).
      * apply nth_error_None in En.
        rewrite !skipn_all2 by lia. now rewrite !select_nil.
Qed.

Lemma choose_raise (uas : list UnitaryAlignement) (idx : nat)
  (value : list float) (e : exn annotator unit) :
  choose uas idx value = Raise e -> e = IndexError.
Proof.
  revert idx.
  induction value as [|v value IH]; intro idx; cbn [Pygamma.choose].
  - discriminate.
  - destruct (less nine_tenths v); [|apply IH].
    destruct (nth_error uas idx) as [ua|]; [|congruence].
    destruct (choose uas (S idx) value) as [rest|e'] eqn:Ec; cbn [bind];
      [discriminate|].
    intros [= <-]. now apply (IH (S idx)).
Qed.

Lemma choose_total (uas : list UnitaryAlignement) (idx : nat)
  (value : list float) :
  idx + length value <= length uas ->
  choose uas idx value
  = Ok (select (map (less nine_tenths) value) (skipn idx uas)).
Proof.
  intro Hlen.
  destruct (choose uas idx value) as [chosen|e] eqn:E.
  - now rewrite (choose_select _ _ _ E).
  - exfalso. revert idx Hlen E.
    induction value as [|v value IH]; intros idx Hlen;
      cbn [Pygamma.choose length] in *; [discriminate|].
    destruct (less nine_tenths v); [|apply IH; lia].
    destruct (nth_error uas idx) as [ua|] eqn:En.
    + destruct (choose uas (S idx) value) as [rest|e'] eqn:Ec; cbn [bind];
        [discriminate|].
      intros [= <-]. apply (IH (S idx)); [lia | exact Ec].
    + apply nth_error_None in En. lia.
Qed.

Lemma choose_raise_length (uas : list UnitaryAlignement) (idx : nat)
  (value : list float) (e : exn annotator unit) :
  choose uas idx value = Raise e -> length uas < idx + length value.
Proof.
  intro H. destruct (Nat.le_gt_cases (idx + length value) (length uas))
    as [Hle|Hgt]; [|exact Hgt].
  rewrite choose_total in H by exact Hle. discriminate H.
Qed.

End Arithmetic.

(** ** The disorder of a unitary alignement, at the exact floats *)

Section Disorder.

Variables annotator unit payload : Type.
Variable annotator_eq_dec : forall a b : annotator, {a = b} + {a <> b}.
Variable unit_eq_dec : forall u v : unit, {u = v} + {u <> v}.
Variable dissimilarity : unit * unit -> payload * payload -> Qc.
Variable DELTA_EMPTY : Qc.

Local Abbreviation Continuum := (Continuum annotator unit payload).
Local Abbreviation UnitaryAlignement :=
  (UnitaryAlignement annotator unit payload).
Local Abbreviation slot := (slot annotator unit).
Local Abbreviation getitem := (getitem (unit:=unit) (payload:=payload)
     annotator_eq_dec).
Local Abbreviation getlabel := (getlabel (annotator:=annotator) (payload:=payload)
     unit_eq_dec).
Local Abbreviation couple_term :=
  (Exact.couple_term annotator_eq_dec unit_eq_dec dissimilarity DELTA_EMPTY).
Local Abbreviation inner_loop :=
  (Exact.inner_loop annotator_eq_dec unit_eq_dec dissimilarity DELTA_EMPTY).
Local Abbreviation outer_loop :=
  (Exact.outer_loop annotator_eq_dec unit_eq_dec dissimilarity DELTA_EMPTY).
Local Abbreviation disorder :=
  (Exact.UnitaryAlignement_disorder annotator_eq_dec unit_eq_dec
     dissimilarity DELTA_EMPTY).
Local Abbreviation slot_cost :=
  (slot_cost annotator_eq_dec unit_eq_dec dissimilarity DELTA_EMPTY).
Local Abbreviation cost_at :=
  (cost_at annotator_eq_dec unit_eq_dec dissimilarity DELTA_EMPTY).
Local Abbreviation pairwise_sum :=
  (pairwise_sum annotator_eq_dec unit_eq_dec dissimilarity DELTA_EMPTY).
Local Abbreviation mean_pairwise_cost :=
  (mean_pairwise_cost annotator_eq_dec unit_eq_dec dissimilarity DELTA_EMPTY).
Local Abbreviation symmetric := (symmetric dissimilarity).

Lemma exact_couple_term (c : Continuum) (s t : slot) :
  couple_term c s t
  = match slot_cost c s t with
    | Some q => Ok (Fin q)
    | None => Raise KeyError
    end.
Proof.
  unfold Pygamma.couple_term, Pygamma.slot_cost, payload_of.
  destruct (what s) as [u|]; [|reflexivity].
  destruct (what t) as [v|]; [|reflexivity].
  destruct (getitem c (who s)) as [an_u|e] eqn:Eu; simpl.
  2:{ apply getitem_raise in Eu. now subst. }
  destruct (getlabel an_u u) as [p|e] eqn:Ep; simpl.
  2:{ apply getlabel_raise in Ep. now subst. }
  destruct (getitem c (who t)) as [an_v|e] eqn:Ev; simpl.
  2:{ apply getitem_raise in Ev. now subst. }
  destruct (getlabel an_v v) as [q|e] eqn:Eq; simpl.
  2:{ apply getlabel_raise in Eq. now subst. }
  reflexivity.
Qed.

Lemma sum_costs_app (l1 l2 : list (option Qc)) :
  sum_costs (l1 ++ l2)
  = match sum_costs l1, sum_costs l2 with
    | Some a, Some b => Some (a + b)%Qc
    | _, _ => None
    end.
Proof.
  induction l1 as [|o l1 IH]; simpl.
  - destruct (sum_costs l2) as [b|]; [|reflexivity].
    f_equal. ring.
  - fold (sum_costs (l1 ++ l2)). fold (sum_costs l1). rewrite IH.
    destruct o as [x|]; [|reflexivity].
    destruct (sum_costs l1) as [a|]; [|reflexivity].
    destruct (sum_costs l2) as [b|]; [|reflexivity].
    f_equal. ring.
Qed.

Lemma inner_loop_sum (c : Continuum) (s : slot) (rest : list slot)
  (acc : Qc) (k : nat) :
  inner_loop c s rest (Fin acc, k)
  = match sum_costs (map (slot_cost c s) rest) with
    | Some x => Ok (Fin (acc + x)%Qc, k + length rest)
    | None => Raise KeyError
    end.
Proof.
  revert acc k. induction rest as [|t rest IH]; intros acc k; simpl.
  - f_equal. f_equal; [f_equal; ring | lia].
  - rewrite exact_couple_term.
    fold (sum_costs (map (slot_cost c s) rest)).
    destruct (slot_cost c s t) as [x|]; simpl.
    + rewrite IH.
      destruct (sum_costs (map (slot_cost c s) rest)) as [y|]; [|reflexivity].
      f_equal. f_equal; [f_equal; ring | lia].
    + reflexivity.
Qed.

Lemma outer_loop_sum (c : Continuum) (t : list slot) (acc : Qc) (k : nat) :
  outer_loop c t (Fin acc, k)
  = match sum_costs (map (fun p => slot_cost c (fst p) (snd p)) (couples t))
    with
    | Some x => Ok (Fin (acc + x)%Qc, k + length (couples t))
    | None => Raise KeyError
    end.
Proof.
  revert acc k. induction t as [|s rest IH]; intros acc k; simpl.
  - f_equal. f_equal; [f_equal; ring | lia].
  - rewrite inner_loop_sum, map_app, map_map, sum_costs_app. simpl.
    destruct (sum_costs (map (slot_cost c s) rest)) as [x|]; simpl.
    + rewrite IH.
      destruct (sum_costs _) as [y|]; [|reflexivity].
      rewrite length_app, length_map.
      f_equal. f_equal; [f_equal; ring | lia].
    + reflexivity.
Qed.

Lemma costs_of_index_pairs (c : Continuum) (t : list slot) :
  map (cost_at c t) (index_pairs (length t))
  = map (fun p => slot_cost c (fst p) (snd p)) (couples t).
Proof.
  induction t as [|s rest IH]; [reflexivity|].
  cbn [length couples]. rewrite index_pairs_S, !map_app, !map_map.
  f_equal.
  - unfold Pygamma.cost_at. cbn [fst snd nth_error].
    exact (map_nth_error_seq
             (fun o => match o with
                       | Some s' => slot_cost c s s'
                       | None => None
                       end) rest).
  - rewrite <- IH. apply map_ext. intros [i j]. reflexivity.
Qed.

Lemma disorder_eq (ua : UnitaryAlignement) :
  disorder ua
  = match pairwise_sum (ua_continuum ua) (n_tuple ua) with
    | Some s => Ok (np_div s (of_nat (binom (length (n_tuple ua)) 2)))
    | None => Raise KeyError
    end.
Proof.
  unfold UnitaryAlignement_disorder, Pygamma.pairwise_sum.
  rewrite outer_loop_sum, costs_of_index_pairs.
  destruct (sum_costs _) as [x|]; [|reflexivity].
  cbn [bind fst snd fdiv]. rewrite length_couples, Nat.eqb_refl.
  f_equal. f_equal. ring.
Qed.


Lemma pairwise_sum_couples (c : Continuum) (t : list slot) :
  pairwise_sum c t
  = sum_costs (map (fun p => slot_cost c (fst p) (snd p)) (couples t)).
Proof. unfold Pygamma.pairwise_sum. now rewrite costs_of_index_pairs. Qed.

Lemma sum_costs_const (d : Qc) (l : list (option Qc)) :
  (forall o, In o l -> o = Some d) ->
  sum_costs l = Some (of_nat (length l) * d)%Qc.
Proof.
  induction l as [|o l IH]; intro H; simpl.
  - f_equal. ring.
  - fold (sum_costs l). rewrite IH by (intros; apply H; now right).
    rewrite (H o) by now left. f_equal. ring.
Qed.

(** A grouping with a single slot has no couple: its disorder is the
    [nan] of [0.0 / 0.0]. *)
Lemma single_slot_disorder (c : Continuum) (s : slot) :
  disorder (mkUnitaryAlignement c [s]) = Ok NaN.
Proof. reflexivity. Qed.

Lemma sum_costs_perm (l l' : list (option Qc)) :
  Permutation l l' -> sum_costs l = sum_costs l'.
Proof.
  induction 1 as [|o l l' _ IH|o o' l|l l' l'' _ IH1 _ IH2].
  - reflexivity.
  - simpl. fold (sum_costs l) (sum_costs l'). now rewrite IH.
  - simpl. fold (sum_costs l).
    destruct o as [a|], o' as [b|], (sum_costs l) as [x|];
      try reflexivity.
    f_equal. ring.
  - congruence.
Qed.

(** In exact arithmetic the order of the additions does not matter: with a
    symmetric distance function the disorder of a grouping does not change
    when its slots are reordered. *)
Lemma exact_disorder_permutation (c : Continuum) (t t' : list slot) :
  symmetric ->
  Permutation t t' ->
  disorder (mkUnitaryAlignement c t') = disorder (mkUnitaryAlignement c t).
Proof.
  intros Hsym Hp. rewrite !disorder_eq. simpl.
  rewrite !pairwise_sum_couples.
  assert (Hc := costs_perm annotator_eq_dec unit_eq_dec DELTA_EMPTY c Hsym Hp).
  unfold Pygamma.costs in Hc. rewrite (sum_costs_perm Hc).
  now rewrite (Permutation_length Hp).
Qed.

(** ** More on the disorder of a unitary alignement *)

Local Abbreviation payload_of := (payload_of annotator_eq_dec unit_eq_dec).

Lemma sum_costs_none (l : list (option Qc)) :
  sum_costs l = None <-> In None l.
Proof.
  induction l as [|o l IH]; simpl.
  - split; [discriminate | intros []].
  - fold (sum_costs l). destruct o as [a|].
    + destruct (sum_costs l) as [b|].
      * split; [discriminate|]. intros [H|H]; [discriminate|].
        apply IH in H. discriminate.
      * split; [intros _; right; now apply IH | reflexivity].
    + split; [intros _; now left | reflexivity].
Qed.

Lemma slot_cost_none (c : Continuum) (s t : slot) :
  slot_cost c s t = None <->
  exists u v,
    what s = Some u /\ what t = Some v
    /\ (payload_of c (who s) u = None \/ payload_of c (who t) v = None).
Proof.
  unfold Pygamma.slot_cost.
  destruct (what s) as [u|]; [destruct (what t) as [v|]|].
  - destruct (payload_of c (who s) u) as [p|] eqn:Ep;
      [destruct (payload_of c (who t) v) as [q|] eqn:Eq|].
    + split; [discriminate|].
      intros [u' [v' [[= <-] [[= <-] [H|H]]]]]; congruence.
    + split; [|reflexivity]. intros _. exists u, v. rewrite Eq. auto.
    + split; [|reflexivity]. intros _. exists u, v. rewrite Ep. auto.
  - split; [discriminate|]. intros [u' [v' [_ [H _]]]]. discriminate.
  - split; [discriminate|]. intros [u' [v' [H _]]]. discriminate.
Qed.

(** X1: the only exception of [UnitaryAlignement.disorder] is [KeyError]
    (the assertion on [num_couples] never fails), and it is raised exactly
    when a couple of slots visited by the two loops holds two units one of
    which is not a unit of its annotator in the timeline; a unit that only
    meets gaps is never looked up. *)
Theorem disorder_KeyError (ua : UnitaryAlignement) :
  (forall e, disorder ua = Raise e -> e = KeyError)
  /\ (disorder ua = Raise KeyError <->
      exists s s' u v,
        In (s, s') (couples (n_tuple ua))
        /\ what s = Some u /\ what s' = Some v
        /\ (payload_of (ua_continuum ua) (who s) u = None
            \/ payload_of (ua_continuum ua) (who s') v = None)).
Proof.
  rewrite disorder_eq, pairwise_sum_couples.
  destruct (sum_costs _) as [x|] eqn:E.
  - split; [discriminate|]. split; [discriminate|].
    intros [s [s' [u [v [Hin [Hu [Hv Hp]]]]]]].
    assert (Hnone : sum_costs
                      (map (fun p => slot_cost (ua_continuum ua) (fst p) (snd p))
                         (couples (n_tuple ua))) = None).
    { apply sum_costs_none. apply in_map_iff. exists (s, s').
      split; [|exact Hin]. apply slot_cost_none. now exists u, v. }
    congruence.
  - split; [now intros e [= <-]|]. split; [intros _ | reflexivity].
    apply sum_costs_none in E. apply in_map_iff in E as [[s s'] [E Hin]].
    apply slot_cost_none in E as [u [v [Hu [Hv Hp]]]].
    now exists s, s', u, v.
Qed.

(** X2: a grouping with fewer than two slots, the empty tuple included, has
    no couple: its disorder is the [nan] of [0.0 / 0.0], returned without
    an exception and without looking anything up in the timeline. *)
Theorem disorder_few_slots (c : Continuum) (t : list slot) :
  length t < 2 -> disorder (mkUnitaryAlignement c t) = Ok NaN.
Proof.
  destruct t as [|s [|s' t]]; cbn [length]; intro H;
    [reflexivity | reflexivity | lia].
Qed.

End Disorder.

(** ** Alignements *)

Section FloatSums.

Lemma fadd_comm (x y : npfloat) : fadd x y = fadd y x.
Proof.
  destruct x as [a| |[|]], y as [b| |[|]]; simpl; try reflexivity.
  f_equal. ring.
Qed.

Lemma fadd_assoc (x y z : npfloat) :
  fadd x (fadd y z) = fadd (fadd x y) z.
Proof.
  destruct x as [a| |[|]], y as [b| |[|]], z as [c| |[|]];
    simpl; try reflexivity.
  f_equal. ring.
Qed.

Lemma fadd_0_r (x : npfloat) : fadd x (Fin 0%Qc) = x.
Proof.
  destruct x as [a| |s]; simpl; try reflexivity.
  f_equal. ring.
Qed.

Lemma fold_left_fadd (ds : list npfloat) (acc : npfloat) :
  fold_left fadd ds acc = fadd acc (total ds).
Proof.
  revert acc. induction ds as [|d ds IH]; intro acc; simpl.
  - now rewrite fadd_0_r.
  - rewrite IH. fold (total ds). now rewrite fadd_assoc.
Qed.

End FloatSums.

Lemma fadd_0_l (x : npfloat) : fadd (Fin 0%Qc) x = x.
Proof. now rewrite fadd_comm, fadd_0_r. Qed.

Section Partition.

Variables annotator unit payload : Type.
Variable annotator_eq_dec : forall a b : annotator, {a = b} + {a <> b}.
Variable unit_eq_dec : forall u v : unit, {u = v} + {u <> v}.
Variable dissimilarity : unit * unit -> payload * payload -> Qc.
Variable DELTA_EMPTY : Qc.

Local Abbreviation Continuum := (Continuum annotator unit payload).
Local Abbreviation UnitaryAlignement :=
  (UnitaryAlignement annotator unit payload).
Local Abbreviation getitem :=
  (getitem (unit:=unit) (payload:=payload) annotator_eq_dec).
Local Abbreviation count_found :=
  (count_found (payload:=payload) annotator_eq_dec unit_eq_dec).
Local Abbreviation references :=
  (references (payload:=payload) annotator_eq_dec unit_eq_dec).
Local Abbreviation test_units :=
  (test_units (payload:=payload) annotator_eq_dec unit_eq_dec).
Local Abbreviation test_pairs :=
  (test_pairs (payload:=payload) annotator_eq_dec unit_eq_dec).
Local Abbreviation test_annotators :=
  (test_annotators annotator_eq_dec unit_eq_dec).
Local Abbreviation set_partition_tests :=
  (set_partition_tests annotator_eq_dec unit_eq_dec).
Local Abbreviation timeline_pairs := (timeline_pairs annotator_eq_dec).
Local Abbreviation units_of :=
  (units_of (unit:=unit) (payload:=payload) annotator_eq_dec).
Local Abbreviation exact_partition :=
  (exact_partition annotator_eq_dec unit_eq_dec).
Local Abbreviation Alignement_init :=
  (Alignement_init annotator_eq_dec unit_eq_dec).
Local Abbreviation disorder :=
  (Exact.UnitaryAlignement_disorder annotator_eq_dec unit_eq_dec
     dissimilarity DELTA_EMPTY).
Local Abbreviation mean_disorder :=
  (Exact.mean_disorder annotator_eq_dec unit_eq_dec dissimilarity
     DELTA_EMPTY).
Local Abbreviation Alignement_disorder :=
  (Exact.Alignement_disorder annotator_eq_dec unit_eq_dec dissimilarity
     DELTA_EMPTY).

Lemma count_found_references (a : annotator) (u : unit)
  (uas : list UnitaryAlignement) (k : nat) :
  count_found a u uas k = k + references (a, u) uas.
Proof.
  revert k. unfold Pygamma.references.
  induction uas as [|ua uas IH]; intro k; simpl; [lia|].
  rewrite IH. destruct (in_n_tuple _ _ a u ua); simpl; lia.
Qed.

Lemma test_units_pairs (a : annotator) (units : list unit)
  (uas : list UnitaryAlignement) :
  test_units a units uas = test_pairs (map (pair a) units) uas.
Proof.
  induction units as [|u units IH]; [reflexivity|].
  cbn [Pygamma.test_units Pygamma.test_pairs map fst snd].
  rewrite count_found_references, IH. reflexivity.
Qed.

Lemma test_pairs_app (ps1 ps2 : list (annotator * unit))
  (uas : list UnitaryAlignement) :
  test_pairs (ps1 ++ ps2) uas
  = bind (test_pairs ps1 uas) (fun _ => test_pairs ps2 uas).
Proof.
  induction ps1 as [|p ps1 IH]; [reflexivity|].
  cbn [app Pygamma.test_pairs].
  destruct (references p uas =? 0); [reflexivity|].
  destruct (1 <? references p uas); [reflexivity | exact IH].
Qed.

Lemma test_annotators_pairs (c : Continuum) (l : list annotator)
  (uas : list UnitaryAlignement) :
  (forall a, In a l -> In a (iterannotators c)) ->
  test_annotators c l uas
  = test_pairs (flat_map (fun a => map (pair a) (units_of c a)) l) uas.
Proof.
  induction l as [|a l IH]; intro Hin; [reflexivity|].
  cbn [Pygamma.test_annotators flat_map]. unfold Pygamma.units_of at 1.
  destruct (getitem_in annotator_eq_dec c a (Hin a (or_introl eq_refl)))
    as [an ->].
  cbn [bind]. rewrite test_pairs_app, test_units_pairs.
  destruct (test_pairs (map (pair a) (itersegments an)) uas) as [[]|e];
    cbn [bind]; [|reflexivity].
  apply IH. intros b Hb. apply Hin. now right.
Qed.

Lemma set_partition_tests_pairs (c : Continuum)
  (uas : list UnitaryAlignement) :
  set_partition_tests c uas = test_pairs (timeline_pairs c) uas.
Proof. apply test_annotators_pairs. auto. Qed.

Lemma test_pairs_ok (ps : list (annotator * unit))
  (uas : list UnitaryAlignement) :
  test_pairs ps uas = Ok tt <-> forall p, In p ps -> references p uas = 1.
Proof.
  induction ps as [|p ps IH]; simpl.
  - split; [intros _ p [] | reflexivity].
  - destruct (references p uas =? 0) eqn:E0.
    { apply Nat.eqb_eq in E0. split; [discriminate|].
      intro H. specialize (H p (or_introl eq_refl)). lia. }
    destruct (1 <? references p uas) eqn:E1.
    { apply Nat.ltb_lt in E1. split; [discriminate|].
      intro H. specialize (H p (or_introl eq_refl)). lia. }
    apply Nat.eqb_neq in E0. apply Nat.ltb_ge in E1.
    rewrite IH. split.
    + intros H q [<-|Hq]; [lia | now apply H].
    + intros H q Hq. apply H. now right.
Qed.

Lemma test_pairs_first (ps1 ps2 : list (annotator * unit))
  (p : annotator * unit) (uas : list UnitaryAlignement) :
  (forall q, In q ps1 -> references q uas = 1) ->
  test_pairs (ps1 ++ p :: ps2) uas
  = if references p uas =? 0 then
      Raise (SetPartitionError (not_in_the_set (fst p) (snd p)))
    else if 1 <? references p uas then
      Raise (SetPartitionError (assigned_twice (fst p) (snd p)))
    else test_pairs ps2 uas.
Proof.
  intro H. rewrite test_pairs_app.
  apply test_pairs_ok in H. rewrite H. reflexivity.
Qed.

(** Two elements of an n-tuple are equal when they have the same form and
    the same components. *)
Lemma slot_eqb_eq (s t : slot annotator unit) :
  slot_eqb annotator_eq_dec unit_eq_dec s t = true <-> s = t.
Proof.
  destruct s as [f a o], t as [g b o']. unfold Pygamma.slot_eqb.
  cbn [form who what].
  destruct f, g; cbn [sequence_eqb andb]; try (split; congruence);
    (destruct (annotator_eq_dec a b) as [->|Hab]; cbn [andb];
     [|split; congruence]);
    (destruct o as [u|], o' as [v|]; try (split; congruence));
    destruct (unit_eq_dec u v) as [->|Huv]; split; congruence.
Qed.

Lemma in_n_tuple_list (a : annotator) (u : unit) (ua : UnitaryAlignement) :
  in_n_tuple annotator_eq_dec unit_eq_dec a u ua = true
  <-> In (mkSlot PyList a (Some u)) (n_tuple ua).
Proof.
  unfold Pygamma.in_n_tuple. rewrite existsb_exists. split.
  - intros [s [Hs E]]. apply slot_eqb_eq in E. now subst s.
  - intro H. exists (mkSlot PyList a (Some u)).
    split; [exact H | now apply slot_eqb_eq].
Qed.


Lemma mean_disorder_eq (uas : list UnitaryAlignement) :
  mean_disorder uas
  = match mapM disorder uas with
    | Ok ds =>
        if length uas =? 0 then Raise ZeroDivisionError
        else Ok (fdiv_nat (total ds) (length uas))
    | Raise e => Raise e
    end.
Proof.
  rewrite mean_disorder_sum.
  destruct (mapM disorder uas) as [ds|e]; [|reflexivity].
  destruct (length uas =? 0) eqn:E; [reflexivity|].
  apply Nat.eqb_neq in E. unfold running_sum.
  rewrite fold_left_fadd, fadd_0_l, fdiv_of_nat by lia. reflexivity.
Qed.

(** C10: over a timeline with no couple (annotator, unit), the empty
    collection of groupings passes the construction-time test, and
    reading the disorder of that alignment raises [ZeroDivisionError]. *)
Theorem empty_Alignement_disorder (c : Continuum) :
  timeline_pairs c = [] ->
  Alignement_init c [] = Ok (mkAlignement c [])
  /\ Alignement_disorder (mkAlignement c []) = Raise ZeroDivisionError.
Proof.
  intro H. split; [|reflexivity].
  unfold Pygamma.Alignement_init.
  now rewrite set_partition_tests_pairs, H.
Qed.

End Partition.

(** ** Candidate generation and pruning, at the exact floats *)

Section Generation.

Variables annotator unit payload : Type.
Variable annotator_eq_dec : forall a b : annotator, {a = b} + {a <> b}.
Variable unit_eq_dec : forall u v : unit, {u = v} + {u <> v}.
Variable dissimilarity : unit * unit -> payload * payload -> Qc.
Variable DELTA_EMPTY : Qc.

Local Abbreviation Continuum := (Continuum annotator unit payload).
Local Abbreviation UnitaryAlignement :=
  (UnitaryAlignement annotator unit payload).
Local Abbreviation slot := (slot annotator unit).
Local Abbreviation valid_slot :=
  (valid_slot (unit:=unit) (payload:=payload) annotator_eq_dec).
Local Abbreviation candidates :=
  (candidates (unit:=unit) (payload:=payload) annotator_eq_dec).
Local Abbreviation slot_cost :=
  (slot_cost annotator_eq_dec unit_eq_dec dissimilarity DELTA_EMPTY).
Local Abbreviation pairwise_sum :=
  (pairwise_sum annotator_eq_dec unit_eq_dec dissimilarity DELTA_EMPTY).
Local Abbreviation disorder :=
  (Exact.UnitaryAlignement_disorder annotator_eq_dec unit_eq_dec
     dissimilarity DELTA_EMPTY).
Local Abbreviation below_bound :=
  (Exact.below_bound annotator_eq_dec unit_eq_dec dissimilarity
     DELTA_EMPTY).
Local Abbreviation set_of_possible_unitary_alignements :=
  (Exact.set_of_possible_unitary_alignements annotator_eq_dec unit_eq_dec
     dissimilarity DELTA_EMPTY).

Lemma sum_costs_some (l : list (option Qc)) :
  (forall o, In o l -> exists q, o = Some q) ->
  exists x, sum_costs l = Some x.
Proof.
  induction l as [|o l IH]; intro H; simpl; [eauto|].
  fold (sum_costs l).
  destruct IH as [x ->]; [intros; apply H; now right|].
  destruct (H o (or_introl eq_refl)) as [q ->]. eauto.
Qed.

Lemma valid_pairwise_sum (c : Continuum) (t : list slot) :
  Forall (valid_slot c) t -> exists x, pairwise_sum c t = Some x.
Proof.
  intro H. rewrite pairwise_sum_couples. apply sum_costs_some.
  intros o Ho. apply in_map_iff in Ho as [[s1 s2] [<- Hp]].
  apply in_couples in Hp as [H1 H2]. rewrite Forall_forall in H.
  apply valid_slot_cost; now apply H.
Qed.

(** C9: over a timeline with exactly one annotator nothing is rejected:
    every grouping has a single slot and no couple, the division of [0.0]
    by [binom(1, 2) = 0.0] is carried out and its disorder is [nan],
    returned without an exception; candidate generation then keeps no
    candidate, [nan] being below no bound. *)
Theorem single_annotator_nan (c : Continuum) :
  len c = 1 ->
  (forall t, length t = len c -> disorder (mkUnitaryAlignement c t) = Ok NaN)
  /\ set_of_possible_unitary_alignements c = Ok [].
Proof.
  intro Hc.
  assert (Hnan : forall t, length t = len c ->
                           disorder (mkUnitaryAlignement c t) = Ok NaN).
  { intros [|s [|s' t]] Ht; rewrite Hc in Ht; try discriminate.
    reflexivity. }
  split; [exact Hnan|].
  rewrite set_of_possible_unitary_alignements_eq. f_equal.
  apply filter_none. intros ua Hua. unfold Pygamma.candidates in Hua.
  apply in_map_iff in Hua as [t [<- Ht]].
  apply candidate_valid in Ht as [Ht _].
  unfold Pygamma.below_bound. now rewrite (Hnan t Ht).
Qed.

End Generation.

(** ** The best alignement *)

Lemma selected_indicator (mask : list bool) :
  map selected (Program.indicator mask) = mask.
Proof.
  induction mask as [|[|] mask IH]; simpl; [reflexivity| |];
    now rewrite IH.
Qed.

Lemma binary_indicator (mask : list bool) :
  Program.binary (Program.indicator mask) = true.
Proof.
  induction mask as [|[|] mask IH]; simpl; [reflexivity| |]; exact IH.
Qed.

Lemma Qc_lt_succ (x : Qc) : (x < x + 1)%Qc.
Proof.
  apply Qclt_minus_iff. replace (x + 1 + - x)%Qc with 1%Qc by ring.
  now unfold Qclt.
Qed.

Lemma of_nat_lt (m n : nat) : m < n -> (of_nat m < of_nat n)%Qc.
Proof.
  induction 1 as [|n _ IH]; simpl.
  - apply Qc_lt_succ.
  - apply Qclt_trans with (of_nat n); [exact IH | apply Qc_lt_succ].
Qed.

Lemma of_nat_inj (m n : nat) : of_nat m = of_nat n -> m = n.
Proof.
  intro E. destruct (Nat.lt_trichotomy m n) as [H|[H|H]]; [|exact H|];
    apply of_nat_lt in H; rewrite E in H; now apply Qclt_not_eq in H.
Qed.

Lemma flt_selected (v : Qc) : flt (Fin (Q2Qc (9 # 10))) (Fin v) = selected v.
Proof. reflexivity. Qed.

Lemma above_finite (x : list Qc) :
  map (flt (Fin (Q2Qc (9 # 10)))) (map Fin x) = map selected x.
Proof. rewrite map_map. apply map_ext. intro v. apply flt_selected. Qed.

Section Best.

Variables annotator unit payload : Type.
Variable annotator_eq_dec : forall a b : annotator, {a = b} + {a <> b}.
Variable unit_eq_dec : forall u v : unit, {u = v} + {u <> v}.
Variable dissimilarity : unit * unit -> payload * payload -> Qc.
Variable DELTA_EMPTY : Qc.
Variable solve :
  list npfloat -> list (list npfloat) ->
  result annotator unit (option (list npfloat)).

Local Abbreviation Continuum := (Continuum annotator unit payload).
Local Abbreviation UnitaryAlignement :=
  (UnitaryAlignement annotator unit payload).
Local Abbreviation slot := (slot annotator unit).
Local Abbreviation getitem :=
  (getitem (unit:=unit) (payload:=payload) annotator_eq_dec).
Local Abbreviation units_of :=
  (units_of (unit:=unit) (payload:=payload) annotator_eq_dec).
Local Abbreviation timeline_pairs := (timeline_pairs annotator_eq_dec).
Local Abbreviation references :=
  (references (payload:=payload) annotator_eq_dec unit_eq_dec).
Local Abbreviation exact_partition :=
  (exact_partition annotator_eq_dec unit_eq_dec).
Local Abbreviation set_partition_tests :=
  (set_partition_tests annotator_eq_dec unit_eq_dec).
Local Abbreviation test_pairs :=
  (test_pairs (payload:=payload) annotator_eq_dec unit_eq_dec).
Local Abbreviation candidates :=
  (candidates (unit:=unit) (payload:=payload) annotator_eq_dec).
Local Abbreviation pairwise_sum :=
  (pairwise_sum annotator_eq_dec unit_eq_dec dissimilarity DELTA_EMPTY).
Local Abbreviation disorder :=
  (Exact.UnitaryAlignement_disorder annotator_eq_dec unit_eq_dec
     dissimilarity DELTA_EMPTY).
Local Abbreviation disorder_value :=
  (disorder_value annotator_eq_dec unit_eq_dec dissimilarity DELTA_EMPTY).
Local Abbreviation total_disorder :=
  (total_disorder annotator_eq_dec unit_eq_dec dissimilarity DELTA_EMPTY).
Local Abbreviation below_bound :=
  (Exact.below_bound annotator_eq_dec unit_eq_dec dissimilarity
     DELTA_EMPTY).
Local Abbreviation incidence :=
  (incidence (payload:=payload) annotator_eq_dec unit_eq_dec).
Local Abbreviation constraints_rows :=
  (constraints_rows annotator_eq_dec unit_eq_dec).
Local Abbreviation constraints_matrix :=
  (Exact.constraints_matrix annotator_eq_dec unit_eq_dec).
Local Abbreviation choose :=
  (@Pygamma.choose annotator unit payload npfloat (Fin (Q2Qc (9 # 10))) flt).
Local Abbreviation above := (flt (Fin (Q2Qc (9 # 10)))).
Local Abbreviation get_unitary_alignements_best :=
  (Exact.get_unitary_alignements_best annotator_eq_dec unit_eq_dec
     dissimilarity DELTA_EMPTY solve).
Local Abbreviation BestAlignement_init :=
  (Exact.BestAlignement_init annotator_eq_dec unit_eq_dec dissimilarity
     DELTA_EMPTY solve).

(** The candidates that survive the pruning. *)
Local Abbreviation kept c := (filter (below_bound c) (candidates c)).

Lemma mapM_disorder (uas : list UnitaryAlignement) :
  (forall ua, In ua uas -> exists d, disorder ua = Ok d) ->
  mapM disorder uas = Ok (map disorder_value uas).
Proof.
  induction uas as [|ua uas IH]; intro H; [reflexivity|].
  cbn [mapM map]. unfold Pygamma.disorder_value at 1.
  destruct (H ua (or_introl eq_refl)) as [d ->]. cbn [bind].
  rewrite IH by (intros; apply H; now right). reflexivity.
Qed.

Lemma kept_disorder (c : Continuum) (ua : UnitaryAlignement) :
  In ua (kept c) -> exists d, disorder ua = Ok d.
Proof.
  rewrite filter_In. unfold Pygamma.below_bound. intros [_ H].
  destruct (disorder ua) as [d|e]; [eauto | discriminate].
Qed.

Lemma constraints_matrix_eq (c : Continuum)
  (uas : list UnitaryAlignement) :
  constraints_matrix c uas = Ok (Program.matrix (constraints_rows c uas)).
Proof.
  rewrite constraints_matrix_rows. f_equal.
  unfold Program.matrix, Pygamma.constraints_rows. rewrite map_map.
  apply map_ext. intro p.
  unfold Pygamma.constraints_row, Pygamma.incidence. rewrite map_map.
  apply map_ext. intro ua.
  now destruct (in_n_tuple annotator_eq_dec unit_eq_dec (fst p) (snd p) ua).
Qed.

Lemma get_unitary_alignements_best_eq (c : Continuum) :
  get_unitary_alignements_best c
  = match solve (map disorder_value (kept c))
            (Program.matrix (constraints_rows c (kept c))) with
    | Raise e => Raise e
    | Ok None => Raise TypeError
    | Ok (Some value) => choose (kept c) 0 value
    end.
Proof.
  unfold Pygamma.get_unitary_alignements_best.
  rewrite set_of_possible_unitary_alignements_eq. cbn [bind].
  rewrite mapM_disorder by apply kept_disorder. cbn [bind].
  rewrite constraints_matrix_eq. cbn [bind].
  now destruct (solve _ _) as [[value|]|e].
Qed.

Lemma of_nat_1 : of_nat 1 = 1%Qc.
Proof. simpl. ring. Qed.

Lemma binary_cons (v : Qc) (x : list Qc) :
  Program.binary (v :: x) = true ->
  (v = 0%Qc \/ v = 1%Qc) /\ Program.binary x = true.
Proof.
  unfold Program.binary. cbn [forallb].
  rewrite andb_true_iff, orb_true_iff, !Qc_eqb_eq. auto.
Qed.

Lemma dot_row (p : annotator * unit) (uas : list UnitaryAlignement)
  (x : list Qc) :
  length x = length uas ->
  Program.binary x = true ->
  Program.dot (incidence p uas) x
  = of_nat (references p (select (map selected x) uas)).
Proof.
  revert x. induction uas as [|ua uas IH]; intros [|v x] Hlen Hbin;
    try discriminate; [reflexivity|].
  apply binary_cons in Hbin as [Hv Hbin]. injection Hlen as Hlen.
  specialize (IH x Hlen Hbin).
  unfold Program.dot, Pygamma.references in *.
  cbn [Pygamma.incidence map combine fold_right fst snd select].
  unfold Pygamma.incidence in IH. rewrite IH. cbn [fst snd].
  destruct Hv as [-> | ->].
  - change (selected 0%Qc) with false. cbn iota. ring.
  - change (selected 1%Qc) with true. cbn iota. cbn [filter].
    destruct (in_n_tuple annotator_eq_dec unit_eq_dec (fst p) (snd p) ua);
      cbn [length of_nat]; ring.
Qed.

Lemma feasible_exact (c : Continuum) (uas : list UnitaryAlignement)
  (x : list Qc) :
  length x = length uas ->
  Program.binary x = true ->
  Program.feasible (constraints_rows c uas) x = true
  <-> exact_partition c (select (map selected x) uas).
Proof.
  intros Hlen Hbin. unfold Program.feasible. rewrite Hbin. cbn [andb].
  unfold Pygamma.constraints_rows, Pygamma.exact_partition.
  rewrite forallb_forall. split.
  - intros H p Hp.
    specialize (H _ (in_map _ _ _ Hp)). cbn beta in H.
    apply Qc_eqb_eq in H. rewrite dot_row in H by assumption.
    rewrite <- of_nat_1 in H. now apply of_nat_inj in H.
  - intros H row Hrow. apply in_map_iff in Hrow as [p [<- Hp]].
    apply Qc_eqb_eq. rewrite dot_row by assumption.
    rewrite (H _ Hp). apply of_nat_1.
Qed.

Lemma objective_total (ds : list npfloat) (x : list Qc) :
  length x = length ds ->
  Program.binary x = true ->
  Forall (fun d => exists q, d = Fin q) ds ->
  Program.objective ds x = total (select (map selected x) ds).
Proof.
  intros Hlen Hbin Hfin. revert x Hlen Hbin.
  induction Hfin as [|d ds [q ->] _ IH]; intros [|v x] Hlen Hbin;
    try discriminate; [reflexivity|].
  apply binary_cons in Hbin as [Hv Hbin]. injection Hlen as Hlen.
  specialize (IH x Hlen Hbin). unfold Program.objective in *.
  cbn [combine map total fold_right fst snd select fmul].
  fold (total (map (fun p => fmul (fst p) (Fin (snd p))) (combine ds x))).
  rewrite IH. destruct Hv as [-> | ->].
  - change (selected 0%Qc) with false. cbn iota.
    rewrite Qcmult_0_r. apply fadd_0_l.
  - change (selected 1%Qc) with true. cbn iota.
    now rewrite Qcmult_1_r.
Qed.

Lemma disorder_fin_or_nan (ua : UnitaryAlignement) (d : npfloat) :
  disorder ua = Ok d -> d = NaN \/ exists q, d = Fin q.
Proof.
  destruct ua as [c [|s1 [|s2 t]]].
  - change (disorder (mkUnitaryAlignement c [])) with
      (@Ok annotator unit _ NaN).
    intros [= <-]. now left.
  - rewrite single_slot_disorder. intros [= <-]. now left.
  - rewrite disorder_eq.
    destruct (pairwise_sum _ _) as [x|]; [|discriminate].
    rewrite np_div_nonzero by (apply binom_2_pos; simpl; lia).
    intros [= <-]. eauto.
Qed.

Lemma kept_finite (c : Continuum) :
  Forall (fun d => exists q, d = Fin q) (map disorder_value (kept c)).
Proof.
  apply Forall_forall. intros d Hd.
  apply in_map_iff in Hd as [ua [<- Hua]].
  apply filter_In in Hua as [_ Hua].
  unfold Pygamma.below_bound in Hua. unfold Pygamma.disorder_value.
  destruct (disorder ua) as [d|e] eqn:E; [|discriminate].
  destruct (disorder_fin_or_nan _ E) as [-> | H]; [discriminate | exact H].
Qed.

Lemma test_pairs_raise (ps : list (annotator * unit))
  (uas : list UnitaryAlignement) (e : exn annotator unit) :
  test_pairs ps uas = Raise e -> exists m, e = SetPartitionError m.
Proof.
  induction ps as [|p ps IH]; cbn [Pygamma.test_pairs]; [discriminate|].
  destruct (references p uas =? 0); [intros [= <-]; eauto|].
  destruct (1 <? references p uas); [intros [= <-]; eauto | exact IH].
Qed.

Lemma set_partition_tests_exact (c : Continuum)
  (uas : list UnitaryAlignement) :
  set_partition_tests c uas = Ok tt <-> exact_partition c uas.
Proof. rewrite set_partition_tests_pairs. apply test_pairs_ok. Qed.

Lemma BestAlignement_init_ok (c : Continuum)
  (b : BestAlignement annotator unit payload) :
  BestAlignement_init c = Ok b ->
  exists value,
    solve (map disorder_value (kept c))
      (Program.matrix (constraints_rows c (kept c)))
    = Ok (Some value)
    /\ set_unitary_alignements b = select (map above value) (kept c)
    /\ exact_partition c (set_unitary_alignements b).
Proof.
  unfold Pygamma.BestAlignement_init.
  rewrite get_unitary_alignements_best_eq.
  destruct (solve _ _) as [[value|]|e]; [|discriminate|discriminate].
  destruct (choose (kept c) 0 value) as [chosen|e] eqn:Ec; cbn [bind];
    [|discriminate].
  destruct (set_partition_tests c chosen) as [[]|e] eqn:Et; cbn [bind];
    [|discriminate].
  intros [= <-]. exists value. cbn [set_unitary_alignements].
  split; [reflexivity|]. split.
  - apply choose_select in Ec. exact Ec.
  - now apply set_partition_tests_exact.
Qed.

(** C8: when no selection of the pruned candidates is an exact cover of
    the couples of the timeline, constructing the best alignement never
    succeeds, whatever the solver does, and no infeasibility is reported:
    an exception of the solver is passed on as it is; with no value from
    the solver the comparison [x.value > 0.9] raises [TypeError]; with a
    value, the groupings above 0.9 are returned as they are by
    [get_unitary_alignements_best], and the constructor then raises the
    [SetPartitionError] of its set-partition tests (or [IndexError] on an
    index past the candidates). *)
Theorem no_exact_cover_raises (c : Continuum) :
  (forall mask, ~ exact_partition c (select mask (kept c))) ->
  match solve (map disorder_value (kept c))
          (Program.matrix (constraints_rows c (kept c)))
  with
  | Raise e =>
      get_unitary_alignements_best c = Raise e
      /\ BestAlignement_init c = Raise e
  | Ok None =>
      get_unitary_alignements_best c = Raise TypeError
      /\ BestAlignement_init c = Raise TypeError
  | Ok (Some value) =>
      get_unitary_alignements_best c = choose (kept c) 0 value
      /\ (length value <= length (kept c) ->
          get_unitary_alignements_best c
          = Ok (select (map above value) (kept c)))
      /\ exists e,
           BestAlignement_init c = Raise e
           /\ (e = IndexError \/ exists m, e = SetPartitionError m)
  end.
Proof.
  intro Hno. unfold Pygamma.BestAlignement_init.
  rewrite get_unitary_alignements_best_eq.
  destruct (solve _ _) as [[value|]|e]; [|split; reflexivity|split; reflexivity].
  split; [reflexivity|]. split.
  - intro Hlen. now apply choose_total.
  - destruct (choose (kept c) 0 value) as [chosen|e] eqn:Ec; cbn [bind].
    + apply choose_select in Ec. cbn [skipn] in Ec. subst chosen.
      destruct (set_partition_tests c _) as [[]|e] eqn:Et; cbn [bind].
      * apply set_partition_tests_exact in Et. now apply Hno in Et.
      * exists e. split; [reflexivity|]. right.
        rewrite set_partition_tests_pairs in Et.
        now apply test_pairs_raise in Et.
    + exists e. split; [reflexivity|]. left.
      now apply choose_raise in Ec.
Qed.

(** When the value the solver returns holds an optimal solution of the
    program it was given, the groupings of the best alignement are an
    exact partition whose total disorder is less than or equal to the total
    disorder of every exact partition selected among the pruned
    candidates. *)
Lemma best_minimises_selections (c : Continuum)
  (b : BestAlignement annotator unit payload) :
  (forall value,
      solve (map disorder_value (kept c))
        (Program.matrix (constraints_rows c (kept c)))
      = Ok (Some value) ->
      Program.solution (map disorder_value (kept c))
        (constraints_rows c (kept c)) value) ->
  BestAlignement_init c = Ok b ->
  exact_partition c (set_unitary_alignements b)
  /\ forall mask,
       length mask = length (kept c) ->
       exact_partition c (select mask (kept c)) ->
       fle (total_disorder (set_unitary_alignements b))
           (total_disorder (select mask (kept c))) = true.
Proof.
  intros Hsolve Hb.
  destruct (BestAlignement_init_ok _ Hb) as [value [Hv [Hsel Hexact]]].
  split; [exact Hexact|]. intros mask Hlen Hmask.
  destruct (Hsolve value Hv) as [x [-> [Hlv [Hfeas Hopt]]]].
  rewrite above_finite in Hsel.
  rewrite length_map in Hlv.
  assert (Hbin : Program.binary x = true).
  { unfold Program.feasible in Hfeas.
    now apply andb_true_iff in Hfeas as [Hbin _]. }
  specialize (Hopt (Program.indicator mask)).
  unfold Program.indicator in Hopt at 1.
  rewrite !length_map in Hopt. specialize (Hopt Hlen).
  assert (Hlen' : length (Program.indicator mask) = length (kept c))
    by (unfold Program.indicator; now rewrite length_map).
  assert (Hfeas' : Program.feasible (constraints_rows c (kept c))
                     (Program.indicator mask) = true).
  { apply feasible_exact;
      [exact Hlen' | apply binary_indicator
      | now rewrite selected_indicator]. }
  specialize (Hopt Hfeas').
  rewrite !objective_total in Hopt;
    try apply kept_finite; try apply binary_indicator;
    try (now rewrite length_map); try exact Hbin.
  rewrite selected_indicator, <- !select_map in Hopt.
  unfold Pygamma.total_disorder. now rewrite Hsel.
Qed.

End Best.
(** ** Optimality of the best alignement *)

Section Optimality.

Variables annotator unit payload : Type.
Variable annotator_eq_dec : forall a b : annotator, {a = b} + {a <> b}.
Variable unit_eq_dec : forall u v : unit, {u = v} + {u <> v}.
Variable dissimilarity : unit * unit -> payload * payload -> Qc.
Variable DELTA_EMPTY : Qc.
Variable solve :
  list npfloat -> list (list npfloat) ->
  result annotator unit (option (list npfloat)).

Local Abbreviation Continuum := (Continuum annotator unit payload).
Local Abbreviation UnitaryAlignement :=
  (UnitaryAlignement annotator unit payload).
Local Abbreviation slot := (slot annotator unit).
Local Abbreviation slot_eqb :=
  (slot_eqb (annotator:=annotator) (unit:=unit) annotator_eq_dec unit_eq_dec).
Local Abbreviation in_n_tuple :=
  (in_n_tuple (payload:=payload) annotator_eq_dec unit_eq_dec).
Local Abbreviation units_of :=
  (units_of (unit:=unit) (payload:=payload) annotator_eq_dec).
Local Abbreviation valid_slot :=
  (valid_slot (unit:=unit) (payload:=payload) annotator_eq_dec).
Local Abbreviation slot_domain :=
  (slot_domain (unit:=unit) (payload:=payload) annotator_eq_dec).
Local Abbreviation slot_domains :=
  (slot_domains (unit:=unit) (payload:=payload) annotator_eq_dec).
Local Abbreviation timeline_pairs := (timeline_pairs annotator_eq_dec).
Local Abbreviation references :=
  (references (payload:=payload) annotator_eq_dec unit_eq_dec).
Local Abbreviation occurrences :=
  (occurrences (annotator:=annotator) (unit:=unit) annotator_eq_dec
     unit_eq_dec).
Local Abbreviation exact_partition :=
  (exact_partition annotator_eq_dec unit_eq_dec).
Local Abbreviation candidates :=
  (candidates (unit:=unit) (payload:=payload) annotator_eq_dec).
Local Abbreviation slot_cost :=
  (slot_cost annotator_eq_dec unit_eq_dec dissimilarity DELTA_EMPTY).
Local Abbreviation pairwise_sum :=
  (pairwise_sum annotator_eq_dec unit_eq_dec dissimilarity DELTA_EMPTY).
Local Abbreviation disorder :=
  (Exact.UnitaryAlignement_disorder annotator_eq_dec unit_eq_dec
     dissimilarity DELTA_EMPTY).
Local Abbreviation disorder_value :=
  (disorder_value annotator_eq_dec unit_eq_dec dissimilarity DELTA_EMPTY).
Local Abbreviation total_disorder :=
  (total_disorder annotator_eq_dec unit_eq_dec dissimilarity DELTA_EMPTY).
Local Abbreviation cost :=
  (cost annotator_eq_dec unit_eq_dec dissimilarity DELTA_EMPTY).
Local Abbreviation sum_cost :=
  (sum_cost annotator_eq_dec unit_eq_dec dissimilarity DELTA_EMPTY).
Local Abbreviation below_bound :=
  (Exact.below_bound annotator_eq_dec unit_eq_dec dissimilarity
     DELTA_EMPTY).
Local Abbreviation repair :=
  (repair annotator_eq_dec unit_eq_dec dissimilarity DELTA_EMPTY).
Local Abbreviation constraints_rows :=
  (constraints_rows annotator_eq_dec unit_eq_dec).
Local Abbreviation BestAlignement_init :=
  (Exact.BestAlignement_init annotator_eq_dec unit_eq_dec dissimilarity
     DELTA_EMPTY solve).
Local Abbreviation BestAlignement_disorder :=
  (Exact.BestAlignement_disorder annotator_eq_dec unit_eq_dec dissimilarity
     DELTA_EMPTY).
Local Abbreviation above := (flt (Fin (Q2Qc (9 # 10)))).
Local Abbreviation kept c := (filter (below_bound c) (candidates c)).

Lemma slot_eqb_gap (a : annotator) (u : unit) (s : slot) :
  slot_eqb (mkSlot PyList a (Some u)) (gap s) = false.
Proof.
  unfold Pygamma.slot_eqb, gap. cbn [form who what sequence_eqb andb].
  now destruct (annotator_eq_dec a (who s)).
Qed.

Lemma existsb_gaps (a : annotator) (u : unit) (t : list slot) :
  existsb (slot_eqb (mkSlot PyList a (Some u))) (map gap t) = false.
Proof.
  induction t as [|s t IH]; [reflexivity|].
  cbn [map existsb]. now rewrite slot_eqb_gap, IH.
Qed.

Lemma references_cons (p : annotator * unit) (ua : UnitaryAlignement)
  (uas : list UnitaryAlignement) :
  references p (ua :: uas)
  = (if in_n_tuple (fst p) (snd p) ua then 1 else 0) + references p uas.
Proof.
  unfold Pygamma.references. cbn [filter].
  now destruct (in_n_tuple (fst p) (snd p) ua).
Qed.

Lemma references_app (p : annotator * unit)
  (l1 l2 : list UnitaryAlignement) :
  references p (l1 ++ l2) = references p l1 + references p l2.
Proof.
  unfold Pygamma.references. now rewrite filter_app, length_app.
Qed.

Lemma references_behind_gap (p : annotator * unit) (c : Continuum)
  (s : slot) (l : list (list slot)) :
  references p (map (mkUnitaryAlignement c) (map (cons (gap s)) l))
  = references p (map (mkUnitaryAlignement c) l).
Proof.
  induction l as [|x l IH]; [reflexivity|].
  cbn [map]. rewrite !references_cons, IH. f_equal.
  unfold Pygamma.in_n_tuple. cbn [n_tuple existsb].
  now rewrite slot_eqb_gap.
Qed.

Lemma references_singletons (p : annotator * unit) (c : Continuum)
  (t : list slot) :
  references p (map (mkUnitaryAlignement c) (singletons t))
  = occurrences p t.
Proof.
  induction t as [|s t IH]; [reflexivity|].
  unfold Pygamma.occurrences in *. cbn [singletons filter].
  destruct (what s) as [u|] eqn:Es.
  - cbn [map]. rewrite references_cons, references_behind_gap, IH.
    unfold Pygamma.in_n_tuple. cbn [n_tuple existsb].
    rewrite existsb_gaps, orb_false_r.
    now destruct (slot_eqb (mkSlot PyList (fst p) (Some (snd p))) s).
  - rewrite references_behind_gap, IH.
    destruct (slot_eqb (mkSlot PyList (fst p) (Some (snd p))) s) eqn:E; [|reflexivity].
    apply slot_eqb_eq in E. subst s. discriminate Es.
Qed.

Lemma occurrences_unique (a : annotator) (u : unit) (t : list slot) :
  NoDup (map (@who _ _) t) ->
  occurrences (a, u) t
  = if existsb (slot_eqb (mkSlot PyList a (Some u))) t then 1 else 0.
Proof.
  unfold Pygamma.occurrences. cbn [fst snd].
  induction t as [|s t IH]; intro Hnd; [reflexivity|].
  cbn [map] in Hnd. apply NoDup_cons_iff in Hnd as [Hs Hnd].
  cbn [filter existsb].
  destruct (slot_eqb (mkSlot PyList a (Some u)) s) eqn:E; cbn [orb]; [|now apply IH].
  apply slot_eqb_eq in E. subst s. cbn [who length] in *.
  rewrite filter_none; [reflexivity|].
  intros x Hx.
  destruct (slot_eqb (mkSlot PyList a (Some u)) x) eqn:Ex; [|reflexivity].
  apply slot_eqb_eq in Ex. subst x.
  exfalso. apply Hs. now apply (in_map (@who _ _)) in Hx.
Qed.

Lemma gap_in_domain (c : Continuum) (a : annotator) (s : slot) :
  In s (slot_domain c a) -> In (gap s) (slot_domain c a).
Proof.
  intro H. assert (Ha := H). apply in_slot_domain in Ha as [Ha _].
  unfold gap. rewrite Ha. unfold Pygamma.slot_domain.
  apply in_map, in_or_app. right. now left.
Qed.

Lemma gaps_in_domains (c : Continuum) (l : list annotator) (t : list slot) :
  Forall2 (@In slot) t (map (slot_domain c) l) ->
  Forall2 (@In slot) (map gap t) (map (slot_domain c) l).
Proof.
  revert t. induction l as [|a l IH]; intros t H; inversion H; subst;
    cbn [map]; constructor.
  - now apply gap_in_domain.
  - now apply IH.
Qed.

Lemma singletons_in_domains (c : Continuum) (l : list annotator)
  (t x : list slot) :
  Forall2 (@In slot) t (map (slot_domain c) l) ->
  In x (singletons t) ->
  Forall2 (@In slot) x (map (slot_domain c) l).
Proof.
  revert t x. induction l as [|a l IH]; intros t x H Hx;
    inversion H as [|s d t' ds Hs Ht']; subst; [destruct Hx|].
  cbn [singletons] in Hx.
  assert (Hothers : In x (map (cons (gap s)) (singletons t')) ->
                    Forall2 (@In slot) x (map (slot_domain c) (a :: l))).
  { intro Hin. apply in_map_iff in Hin as [x' [<- Hx']].
    cbn [map]. constructor; [now apply gap_in_domain | now apply (IH t')]. }
  destruct (what s); [|now apply Hothers].
  destruct Hx as [<-|Hx]; [|now apply Hothers].
  cbn [map]. constructor; [exact Hs | now apply gaps_in_domains].
Qed.

Lemma singletons_candidates (c : Continuum) (t x : list slot) :
  In t (product (slot_domains c)) ->
  In x (singletons t) ->
  In x (product (slot_domains c)).
Proof.
  rewrite !in_product. apply singletons_in_domains.
Qed.

Lemma singletons_length (t : list slot) :
  length (singletons t) = length (filter is_unit t).
Proof.
  induction t as [|s t IH]; [reflexivity|].
  cbn [singletons filter]. unfold is_unit at 1.
  destruct (what s); cbn [length]; now rewrite length_map, IH.
Qed.

Lemma filter_length_le {A : Type} (f : A -> bool) (l : list A) :
  length (filter f l) <= length l.
Proof.
  induction l as [|x l IH]; [apply Nat.le_refl|].
  cbn [filter]. destruct (f x); cbn [length]; lia.
Qed.

Lemma filter_is_unit_gaps (t : list slot) :
  filter is_unit (map gap t) = [].
Proof. induction t as [|s t IH]; [reflexivity | exact IH]. Qed.

Lemma singletons_one_unit (t x : list slot) :
  In x (singletons t) -> length (filter is_unit x) = 1.
Proof.
  revert x. induction t as [|s t IH]; intros x Hx; [destruct Hx|].
  cbn [singletons] in Hx.
  assert (Hothers : In x (map (cons (gap s)) (singletons t)) ->
                    length (filter is_unit x) = 1).
  { intro Hin. apply in_map_iff in Hin as [x' [<- Hx']].
    cbn [filter]. change (is_unit (gap s)) with false. now apply IH. }
  destruct (what s) as [u|] eqn:Es; [|now apply Hothers].
  destruct Hx as [<-|Hx]; [|now apply Hothers].
  cbn [filter]. unfold is_unit at 1. rewrite Es.
  now rewrite filter_is_unit_gaps.
Qed.

Lemma gap_cost_disorder (c : Continuum) (t : list slot) :
  2 <= length t ->
  (forall p, In p (couples t) ->
             what (fst p) = None \/ what (snd p) = None) ->
  disorder (mkUnitaryAlignement c t) = Ok (Fin DELTA_EMPTY).
Proof.
  intros Hn Hgap. rewrite disorder_eq. cbn [ua_continuum n_tuple].
  rewrite pairwise_sum_couples.
  rewrite (@sum_costs_const DELTA_EMPTY).
  - rewrite length_map, length_couples.
    rewrite np_div_nonzero by now apply binom_2_pos.
    f_equal. f_equal. field. apply of_nat_neq_0. now apply binom_2_pos.
  - intros o Ho. apply in_map_iff in Ho as [[s1 s2] [<- Hp]].
    unfold Pygamma.slot_cost. cbn [fst snd].
    destruct (Hgap _ Hp) as [E|E]; cbn [fst snd] in E; rewrite E;
      [reflexivity | now destruct (what s1)].
Qed.

Lemma candidate_finite (c : Continuum) (ua : UnitaryAlignement) :
  2 <= len c ->
  In ua (candidates c) ->
  disorder ua = Ok (Fin (cost ua)).
Proof.
  intros Hn Hua. apply candidate_tuple in Hua as [E Ht].
  apply candidate_valid in Ht as [Hlen Hvalid].
  unfold Pygamma.cost, Pygamma.disorder_value.
  rewrite disorder_eq.
  destruct (valid_pairwise_sum unit_eq_dec dissimilarity DELTA_EMPTY Hvalid)
    as [x Hx].
  rewrite E in *. cbn [ua_continuum n_tuple] in *. rewrite Hx.
  now rewrite np_div_nonzero by (apply binom_2_pos; lia).
Qed.

Lemma candidate_value (c : Continuum) (ua : UnitaryAlignement) :
  2 <= len c ->
  In ua (candidates c) ->
  disorder_value ua = Fin (cost ua).
Proof.
  intros Hn Hua. unfold Pygamma.disorder_value at 1.
  now rewrite (@candidate_finite c ua Hn Hua).
Qed.

Lemma cost_of_disorder (ua : UnitaryAlignement) (q : Qc) :
  disorder ua = Ok (Fin q) -> cost ua = q.
Proof.
  intro H. unfold Pygamma.cost, Pygamma.disorder_value. now rewrite H.
Qed.

Lemma gap_below_bound (n : nat) :
  2 <= n -> (0 < DELTA_EMPTY)%Qc -> (DELTA_EMPTY < of_nat n * DELTA_EMPTY)%Qc.
Proof.
  intros Hn Hg.
  rewrite <- (Qcmult_1_l DELTA_EMPTY) at 1. rewrite <- of_nat_1.
  apply Qcmult_lt_compat_r; [exact Hg | apply of_nat_lt; lia].
Qed.

Lemma of_nat_le (m n : nat) : m <= n -> (of_nat m <= of_nat n)%Qc.
Proof.
  intro H. apply Nat.lt_eq_cases in H as [H| ->].
  - now apply Qclt_le_weak, of_nat_lt.
  - apply Qcle_refl.
Qed.

Lemma singleton_kept (c : Continuum) (t x : list slot) :
  2 <= len c ->
  (0 < DELTA_EMPTY)%Qc ->
  In t (product (slot_domains c)) ->
  In x (singletons t) ->
  In (mkUnitaryAlignement c x) (kept c)
  /\ cost (mkUnitaryAlignement c x) = DELTA_EMPTY
  /\ has_unit x = true.
Proof.
  intros Hn Hg Ht Hx.
  assert (Hcand := singletons_candidates c t x Ht Hx).
  assert (Hone := singletons_one_unit t x Hx).
  assert (Hd : disorder (mkUnitaryAlignement c x) = Ok (Fin DELTA_EMPTY)).
  { apply gap_cost_disorder.
    - apply candidate_valid in Hcand as [-> _]. exact Hn.
    - intros p Hp. apply (one_unit_couples x); [lia | exact Hp]. }
  split; [|split].
  - apply filter_In. split.
    + unfold Pygamma.candidates. now apply in_map.
    + unfold Pygamma.below_bound. rewrite Hd.
      cbn [flt Pygamma.bound]. apply Qc_ltb_lt. now apply gap_below_bound.
  - now apply cost_of_disorder.
  - unfold has_unit. destruct (filter is_unit x) as [|s l] eqn:E;
      [discriminate|].
    apply existsb_exists. exists s.
    assert (Hs : In s (filter is_unit x)) by (rewrite E; now left).
    now apply filter_In in Hs.
Qed.

Lemma no_unit_cost (c : Continuum) (ua : UnitaryAlignement) :
  2 <= len c ->
  In ua (candidates c) ->
  has_unit (n_tuple ua) = false ->
  cost ua = DELTA_EMPTY.
Proof.
  intros Hn Hua Hno. apply candidate_tuple in Hua as [E Ht].
  apply candidate_valid in Ht as [Hlen _].
  apply cost_of_disorder. rewrite E. apply gap_cost_disorder; [lia|].
  intros p Hp. apply (one_unit_couples (n_tuple ua)); [|exact Hp].
  rewrite filter_none; [cbn; lia|].
  intros s Hs. destruct (is_unit s) eqn:Es; [|reflexivity].
  unfold has_unit in Hno. rewrite <- Hno. symmetry.
  apply existsb_exists. now exists s.
Qed.

Lemma no_unit_no_couple (a : annotator) (u : unit) (t : list slot) :
  has_unit t = false -> existsb (slot_eqb (mkSlot PyList a (Some u))) t = false.
Proof.
  intro Hno. destruct (existsb _ t) eqn:E; [|reflexivity].
  apply existsb_exists in E as [s [Hs E]]. apply slot_eqb_eq in E. subst s.
  unfold has_unit in Hno. rewrite <- Hno. symmetry.
  apply existsb_exists. now exists (mkSlot PyList a (Some u)).
Qed.

Lemma pruned_cost (c : Continuum) (ua : UnitaryAlignement) :
  2 <= len c ->
  In ua (candidates c) ->
  below_bound c ua = false ->
  (of_nat (len c) * DELTA_EMPTY <= cost ua)%Qc.
Proof.
  intros Hn Hua Hpruned. unfold Pygamma.below_bound in Hpruned.
  rewrite (@candidate_finite c ua Hn Hua) in Hpruned.
  now apply Qc_ltb_ge in Hpruned.
Qed.

Lemma sum_cost_app (l1 l2 : list UnitaryAlignement) :
  sum_cost (l1 ++ l2) = (sum_cost l1 + sum_cost l2)%Qc.
Proof.
  unfold Pygamma.sum_cost. induction l1 as [|x l1 IH]; cbn [app map fold_right].
  - ring.
  - rewrite IH. ring.
Qed.

Lemma sum_cost_const (g : Qc) (l : list UnitaryAlignement) :
  (forall x, In x l -> cost x = g) ->
  sum_cost l = (of_nat (length l) * g)%Qc.
Proof.
  unfold Pygamma.sum_cost. induction l as [|x l IH]; intro H;
    cbn [map fold_right length of_nat].
  - ring.
  - rewrite IH by (intros; apply H; now right).
    rewrite (H x (or_introl eq_refl)). ring.
Qed.

Lemma repair_kept (c : Continuum) (ua x : UnitaryAlignement) :
  2 <= len c ->
  (0 < DELTA_EMPTY)%Qc ->
  In ua (candidates c) ->
  In x (repair c ua) ->
  In x (kept c) /\ has_unit (n_tuple x) = true.
Proof.
  intros Hn Hg Hua Hx. unfold Pygamma.repair in Hx.
  destruct (below_bound c ua) eqn:Hb.
  - destruct (has_unit (n_tuple ua)) eqn:Hu; [|destruct Hx].
    destruct Hx as [<-|[]]. split; [|exact Hu].
    apply filter_In. now split.
  - apply in_map_iff in Hx as [t [<- Ht]].
    apply candidate_tuple in Hua as [_ Hua].
    destruct (singleton_kept c _ t Hn Hg Hua Ht) as [Hk [_ Hu]].
    now split.
Qed.

Lemma repair_cost (c : Continuum) (ua : UnitaryAlignement) :
  2 <= len c ->
  (0 < DELTA_EMPTY)%Qc ->
  In ua (candidates c) ->
  (sum_cost (repair c ua) <= cost ua)%Qc.
Proof.
  intros Hn Hg Hua. unfold Pygamma.repair.
  destruct (below_bound c ua) eqn:Hb.
  - destruct (has_unit (n_tuple ua)) eqn:Hu.
    + unfold Pygamma.sum_cost. cbn [map fold_right].
      rewrite Qcplus_0_r. apply Qcle_refl.
    + rewrite (@no_unit_cost c ua Hn Hua Hu).
      now apply Qclt_le_weak.
  - apply Qcle_trans with (of_nat (len c) * DELTA_EMPTY)%Qc;
      [|now apply pruned_cost].
    assert (Hcand := Hua). apply candidate_tuple in Hcand as [_ Ht].
    rewrite (@sum_cost_const DELTA_EMPTY).
    + apply Qcmult_le_compat_r; [|now apply Qclt_le_weak].
      apply of_nat_le. rewrite length_map, singletons_length.
      apply candidate_valid in Ht as [<- _]. apply filter_length_le.
    + intros x Hx. apply in_map_iff in Hx as [t [<- Hx]].
      now destruct (singleton_kept c _ t Hn Hg Ht Hx) as [_ [Hc _]].
Qed.

Lemma repair_references (c : Continuum) (ua : UnitaryAlignement)
  (p : annotator * unit) :
  NoDup (iterannotators c) ->
  In ua (candidates c) ->
  references p (repair c ua)
  = if in_n_tuple (fst p) (snd p) ua then 1 else 0.
Proof.
  intros Hnd Hua. unfold Pygamma.repair.
  destruct (below_bound c ua).
  - destruct (has_unit (n_tuple ua)) eqn:Hu.
    + rewrite references_cons. cbn. lia.
    + unfold Pygamma.in_n_tuple. now rewrite no_unit_no_couple.
  - rewrite references_singletons. destruct p as [a u].
    rewrite occurrences_unique; [reflexivity|].
    apply candidate_tuple in Hua as [_ Ht].
    now rewrite (candidate_annotators _ _ _ Ht).
Qed.

Lemma repairs_kept (c : Continuum) (uas : list UnitaryAlignement)
  (x : UnitaryAlignement) :
  2 <= len c ->
  (0 < DELTA_EMPTY)%Qc ->
  (forall ua, In ua uas -> In ua (candidates c)) ->
  In x (flat_map (repair c) uas) ->
  In x (kept c) /\ has_unit (n_tuple x) = true.
Proof.
  intros Hn Hg Hcand Hx. apply in_flat_map in Hx as [ua [Hua Hx]].
  apply (repair_kept c ua x Hn Hg (Hcand ua Hua) Hx).
Qed.

Lemma repairs_cost (c : Continuum) (uas : list UnitaryAlignement) :
  2 <= len c ->
  (0 < DELTA_EMPTY)%Qc ->
  (forall ua, In ua uas -> In ua (candidates c)) ->
  (sum_cost (flat_map (repair c) uas) <= sum_cost uas)%Qc.
Proof.
  intros Hn Hg. induction uas as [|ua uas IH]; intro Hcand.
  - apply Qcle_refl.
  - cbn [flat_map]. rewrite sum_cost_app.
    unfold Pygamma.sum_cost at 3. cbn [map fold_right].
    apply Qcplus_le_compat.
    + apply repair_cost; [exact Hn | exact Hg |]. apply Hcand. now left.
    + apply IH. intros x Hx. apply Hcand. now right.
Qed.

Lemma repairs_references (c : Continuum) (uas : list UnitaryAlignement)
  (p : annotator * unit) :
  NoDup (iterannotators c) ->
  (forall ua, In ua uas -> In ua (candidates c)) ->
  references p (flat_map (repair c) uas) = references p uas.
Proof.
  intros Hnd. induction uas as [|ua uas IH]; intro Hcand; [reflexivity|].
  cbn [flat_map]. rewrite references_app, references_cons.
  rewrite repair_references by (try exact Hnd; apply Hcand; now left).
  rewrite IH by (intros x Hx; apply Hcand; now right). reflexivity.
Qed.

Lemma sum_cost_perm (l l' : list UnitaryAlignement) :
  Permutation l l' -> sum_cost l = sum_cost l'.
Proof.
  unfold Pygamma.sum_cost.
  induction 1 as [|x l l' _ IH|x y l|l l' l'' _ IH1 _ IH2];
    cbn [map fold_right].
  - reflexivity.
  - now rewrite IH.
  - ring.
  - congruence.
Qed.

Lemma references_perm (p : annotator * unit)
  (l l' : list UnitaryAlignement) :
  Permutation l l' -> references p l = references p l'.
Proof.
  induction 1 as [|x l l' _ IH|x y l|l l' l'' _ IH1 _ IH2].
  - reflexivity.
  - now rewrite !references_cons, IH.
  - rewrite !references_cons. lia.
  - congruence.
Qed.

Lemma total_disorder_finite (c : Continuum) (uas : list UnitaryAlignement) :
  2 <= len c ->
  (forall ua, In ua uas -> In ua (candidates c)) ->
  total_disorder uas = Fin (sum_cost uas).
Proof.
  intros Hn. unfold Pygamma.total_disorder, Pygamma.sum_cost.
  induction uas as [|ua uas IH]; intro Hcand; [reflexivity|].
  cbn [map total fold_right].
  fold (total (map disorder_value uas)).
  rewrite IH by (intros x Hx; apply Hcand; now right).
  rewrite (@candidate_value c ua Hn (Hcand ua (or_introl eq_refl))).
  reflexivity.
Qed.

Lemma select_incl {A : Type} (mask : list bool) (l : list A) (x : A) :
  In x (select mask l) -> In x l.
Proof.
  revert l. induction mask as [|b mask IH]; intros [|y l] Hx;
    try destruct Hx.
  cbn [select] in Hx. destruct b.
  - destruct Hx as [->|Hx]; [now left | right; now apply IH].
  - right. now apply IH.
Qed.

Lemma unit_is_timeline_pair (c : Continuum) (ua : UnitaryAlignement) :
  In ua (candidates c) ->
  has_unit (n_tuple ua) = true ->
  exists p,
    In p (timeline_pairs c) /\ in_n_tuple (fst p) (snd p) ua = true.
Proof.
  intros Hua Hu. apply candidate_tuple in Hua as [_ Ht].
  unfold has_unit in Hu. apply existsb_exists in Hu as [[f a o] [Hs Hunit]].
  destruct o as [u|]; [|discriminate].
  assert (Hvalid := Ht). apply candidate_valid in Hvalid as [_ Hvalid].
  rewrite Forall_forall in Hvalid.
  destruct (Hvalid _ Hs) as [Hf Hin]. cbn [form who what] in Hf, Hin.
  subst f. exists (a, u). split.
  - unfold Pygamma.timeline_pairs. apply in_flat_map. exists a. split.
    + rewrite <- (candidate_annotators _ _ _ Ht).
      now apply (in_map (@who _ _)) in Hs.
    + now apply in_map.
  - unfold Pygamma.in_n_tuple. apply existsb_exists.
    exists (mkSlot PyList a (Some u)).
    split; [exact Hs | now apply slot_eqb_eq].
Qed.

Lemma NoDup_of_unique {A P : Type} (f : P -> A -> bool) (ps : list P)
  (l : list A) :
  (forall x, In x l -> exists p, In p ps /\ f p x = true) ->
  (forall p, In p ps -> length (filter (f p) l) <= 1) ->
  NoDup l.
Proof.
  induction l as [|x l IH]; intros Hsome Hone; constructor.
  - intro Hx. destruct (Hsome x (or_introl eq_refl)) as [p [Hp Hf]].
    specialize (Hone p Hp). cbn [filter] in Hone. rewrite Hf in Hone.
    assert (Hin : In x (filter (f p) l)) by (apply filter_In; now split).
    destruct (filter (f p) l); [destruct Hin | cbn [length] in Hone; lia].
  - apply IH.
    + intros y Hy. apply Hsome. now right.
    + intros p Hp. specialize (Hone p Hp). cbn [filter] in Hone.
      destruct (f p x); cbn [length] in Hone; lia.
Qed.

Lemma In_decidable {A : Type} (x : A) (l : list A) :
  (forall y, In y l -> x = y \/ x <> y) -> In x l \/ ~ In x l.
Proof.
  induction l as [|y l IH]; intro Hdec; [right; intros []|].
  destruct (Hdec y (or_introl eq_refl)) as [->|Hne]; [left; now left|].
  destruct IH as [Hin|Hout].
  - intros z Hz. apply Hdec. now right.
  - left. now right.
  - right. intros [E|Hin]; [now apply Hne | now apply Hout].
Qed.

Lemma mask_of_sublist {A : Type} (K T : list A) :
  (forall x y, In x K -> In y T -> x = y \/ x <> y) ->
  NoDup T ->
  incl T K ->
  exists mask, length mask = length K /\ Permutation (select mask K) T.
Proof.
  revert T. induction K as [|k K IH]; intros T Hdec Hnd Hincl.
  - exists []. split; [reflexivity|].
    destruct T as [|y T]; [constructor | destruct (Hincl y (or_introl eq_refl))].
  - destruct (@In_decidable A k T) as [Hin|Hout].
    { intros y Hy. apply Hdec; [now left | exact Hy]. }
    + apply in_split in Hin as [l1 [l2 ->]].
      assert (Hk := NoDup_remove_2 _ _ _ Hnd).
      apply NoDup_remove_1 in Hnd.
      destruct (IH (l1 ++ l2)) as [mask [Hlen Hperm]].
      * intros x y Hx Hy. apply Hdec; [now right|].
        apply in_app_iff in Hy as [Hy|Hy]; apply in_app_iff;
          [now left | right; now right].
      * exact Hnd.
      * intros x Hx.
        assert (Hx' : In x (l1 ++ k :: l2)).
        { apply in_app_iff in Hx as [Hx|Hx]; apply in_app_iff;
            [now left | right; now right]. }
        destruct (Hincl x Hx') as [<-|HK]; [contradiction | exact HK].
      * exists (true :: mask). split; [cbn [length]; now rewrite Hlen|].
        cbn [select]. apply Permutation_cons_app. exact Hperm.
    + destruct (IH T) as [mask [Hlen Hperm]].
      * intros x y Hx Hy. apply Hdec; [now right | exact Hy].
      * exact Hnd.
      * intros x Hx. destruct (Hincl x Hx) as [<-|HK];
          [contradiction | exact HK].
      * exists (false :: mask). split; [cbn [length]; now rewrite Hlen|].
        exact Hperm.
Qed.

Lemma slot_decidable (s t : slot) : s = t \/ s <> t.
Proof using annotator_eq_dec unit_eq_dec.
  destruct (slot_eqb s t) eqn:E.
  - left. now apply slot_eqb_eq in E.
  - right. intro H. apply (slot_eqb_eq annotator_eq_dec unit_eq_dec) in H.
    congruence.
Qed.

Lemma tuple_decidable (s t : list slot) : s = t \/ s <> t.
Proof using annotator_eq_dec unit_eq_dec.
  revert t. induction s as [|x s IH]; intros [|y t];
    try (right; discriminate); [now left|].
  destruct (slot_decidable x y) as [->|Hne].
  - destruct (IH t) as [->|Hne]; [now left | right; congruence].
  - right. congruence.
Qed.

Lemma candidate_decidable (c : Continuum) (x y : UnitaryAlignement) :
  In x (candidates c) -> In y (candidates c) -> x = y \/ x <> y.
Proof using annotator_eq_dec unit_eq_dec.
  intros Hx Hy.
  apply candidate_tuple in Hx as [Ex _]. apply candidate_tuple in Hy as [Ey _].
  destruct (tuple_decidable (n_tuple x) (n_tuple y)) as [E|Hne].
  - left. rewrite Ex, Ey. now rewrite E.
  - right. congruence.
Qed.

Lemma fle_Fin (a b : Qc) : fle (Fin a) (Fin b) = true <-> (a <= b)%Qc.
Proof.
  cbn [fle]. rewrite negb_true_iff. apply Qc_ltb_ge.
Qed.


(** ** More on alignments *)

Local Abbreviation test_pairs :=
  (test_pairs (payload:=payload) annotator_eq_dec unit_eq_dec).
Local Abbreviation set_partition_tests :=
  (set_partition_tests annotator_eq_dec unit_eq_dec).
Local Abbreviation Alignement_init :=
  (Alignement_init annotator_eq_dec unit_eq_dec).


Lemma test_pairs_ext (ps : list (annotator * unit))
  (uas uas' : list UnitaryAlignement) :
  (forall p, In p ps -> references p uas = references p uas') ->
  test_pairs ps uas = test_pairs ps uas'.
Proof.
  induction ps as [|p ps IH]; intro H; [reflexivity|].
  cbn [Pygamma.test_pairs]. rewrite (H p (or_introl eq_refl)).
  rewrite IH by (intros q Hq; apply H; now right). reflexivity.
Qed.

Lemma Alignement_init_ext (c : Continuum)
  (uas uas' : list UnitaryAlignement) :
  (forall p, In p (timeline_pairs c) ->
             references p uas = references p uas') ->
  Alignement_init c uas'
  = match Alignement_init c uas with
    | Ok _ => Ok (mkAlignement c uas')
    | Raise e => Raise e
    end.
Proof.
  intro H. unfold Pygamma.Alignement_init.
  rewrite !set_partition_tests_pairs.
  rewrite (@test_pairs_ext (timeline_pairs c) uas uas' H).
  now destruct (test_pairs (timeline_pairs c) uas') as [[]|e].
Qed.

(** X4: the order of the groupings does not matter to the constructor of
    [Alignement]: on a reordered collection it succeeds or raises the very
    same exception. *)
Theorem Alignement_init_permutation (c : Continuum)
  (uas uas' : list UnitaryAlignement) :
  Permutation uas uas' ->
  Alignement_init c uas'
  = match Alignement_init c uas with
    | Ok _ => Ok (mkAlignement c uas')
    | Raise e => Raise e
    end.
Proof.
  intro Hp. apply Alignement_init_ext. intros p _.
  now apply references_perm.
Qed.

(** X5: groupings that hold no couple of the timeline, such as groupings of
    gaps only, are not seen by the set-partition tests: appended to a
    collection they change neither the success of the constructor nor the
    exception it raises. *)
Theorem Alignement_init_padding (c : Continuum)
  (uas extra : list UnitaryAlignement) :
  (forall ua p,
      In ua extra -> In p (timeline_pairs c) ->
      in_n_tuple (fst p) (snd p) ua = false) ->
  Alignement_init c (uas ++ extra)
  = match Alignement_init c uas with
    | Ok _ => Ok (mkAlignement c (uas ++ extra))
    | Raise e => Raise e
    end.
Proof.
  intro H. apply Alignement_init_ext. intros p Hp.
  rewrite references_app.
  assert (E : references p extra = 0).
  { unfold Pygamma.references. rewrite filter_none; [reflexivity|].
    intros ua Hua. now apply H. }
  rewrite E. lia.
Qed.

Lemma test_pairs_error (ps : list (annotator * unit))
  (uas : list UnitaryAlignement) (e : exn annotator unit) :
  test_pairs ps uas = Raise e ->
  exists ps1 a u ps2,
    ps = ps1 ++ (a, u) :: ps2
    /\ (forall q, In q ps1 -> references q uas = 1)
    /\ ((e = SetPartitionError (not_in_the_set a u)
         /\ references (a, u) uas = 0)
        \/ (e = SetPartitionError (assigned_twice a u)
            /\ 1 < references (a, u) uas)).
Proof.
  induction ps as [|[a u] ps IH]; cbn [Pygamma.test_pairs fst snd];
    [discriminate|].
  destruct (references (a, u) uas =? 0) eqn:E0.
  { intros [= <-]. apply Nat.eqb_eq in E0.
    exists [], a, u, ps. split; [reflexivity|].
    split; [intros q []|]. now left. }
  destruct (1 <? references (a, u) uas) eqn:E1.
  { intros [= <-]. apply Nat.ltb_lt in E1.
    exists [], a, u, ps. split; [reflexivity|].
    split; [intros q []|]. now right. }
  intro H. destruct (IH H) as [ps1 [a' [u' [ps2 [-> [Hone Hdefect]]]]]].
  exists ((a, u) :: ps1), a', u', ps2. split; [reflexivity|].
  split; [|exact Hdefect].
  apply Nat.eqb_neq in E0. apply Nat.ltb_ge in E1.
  intros q [<-|Hq]; [lia | now apply Hone].
Qed.

(** X6: every exception of the constructor of [Alignement] is a
    [SetPartitionError] that names a couple of the timeline with the defect
    it states, where a grouping counts when it holds the couple as the list
    [[annotator, unit]]: no grouping for "not in the set" and more than one
    for "assigned twice", every couple before it in the timeline being held
    so by exactly one grouping; the lookups [continuum[annotator]] never
    raise. *)
Theorem Alignement_init_error (c : Continuum)
  (uas : list UnitaryAlignement) (e : exn annotator unit) :
  Alignement_init c uas = Raise e ->
  exists ps1 a u ps2,
    timeline_pairs c = ps1 ++ (a, u) :: ps2
    /\ (forall q, In q ps1 -> references q uas = 1)
    /\ ((e = SetPartitionError (not_in_the_set a u)
         /\ references (a, u) uas = 0)
        \/ (e = SetPartitionError (assigned_twice a u)
            /\ 1 < references (a, u) uas)).
Proof.
  unfold Pygamma.Alignement_init. rewrite set_partition_tests_pairs.
  destruct (test_pairs (timeline_pairs c) uas) as [[]|e'] eqn:E;
    cbn [bind]; [discriminate|].
  intros [= <-]. now apply test_pairs_error.
Qed.

(** ** More on candidate generation *)

Local Abbreviation constraints_matrix :=
  (Exact.constraints_matrix annotator_eq_dec unit_eq_dec).
Local Abbreviation getitem :=
  (getitem (unit:=unit) (payload:=payload) annotator_eq_dec).

Lemma length_product {A : Type} (ls : list (list A)) :
  length (product ls) = fold_right Nat.mul 1 (map (@length A) ls).
Proof.
  induction ls as [|l ls IH]; [reflexivity|].
  cbn [product map fold_right]. rewrite <- IH. clear IH.
  induction l as [|x l IHl]; [reflexivity|].
  cbn [flat_map length]. rewrite length_app, length_map, IHl. lia.
Qed.

(** X10: the candidate groupings built from [itertools.product] are exactly
    the tuples with one slot per annotator, in the order of the timeline,
    each the list of that annotator and one of its units or [None]; before
    the pruning there are as many as the product, over the annotators, of
    their number of units plus one. *)
Theorem candidate_groupings (c : Continuum) :
  (forall ua,
      In ua (candidates c) <->
      ua_continuum ua = c
      /\ map (@who _ _) (n_tuple ua) = iterannotators c
      /\ Forall (valid_slot c) (n_tuple ua))
  /\ length (candidates c)
     = fold_right Nat.mul 1
         (map (fun a => S (length (units_of c a))) (iterannotators c)).
Proof.
  split; [intro ua; apply in_candidates|].
  - unfold Pygamma.candidates, Pygamma.slot_domains.
    rewrite length_map, length_product, !map_map. f_equal.
    apply map_ext. intro a. unfold Pygamma.slot_domain.
    rewrite length_map, length_app, length_map. cbn. lia.
Qed.

Lemma units_of_tail (a : annotator) (an : Annotation unit payload)
  (c : Continuum) (l : list annotator) :
  ~ In a l ->
  flat_map (fun b => map (pair b) (units_of ((a, an) :: c) b)) l
  = flat_map (fun b => map (pair b) (units_of c b)) l.
Proof.
  induction l as [|b l IH]; intro Ha; [reflexivity|].
  cbn [flat_map]. rewrite IH by (intro H; apply Ha; now right).
  f_equal. unfold Pygamma.units_of. cbn [Pygamma.getitem].
  destruct (annotator_eq_dec b a) as [->|Hne]; [|reflexivity].
  exfalso. apply Ha. now left.
Qed.

Lemma fold_left_add {A : Type} (g : A -> nat) (l : list A) (k : nat) :
  fold_left (fun n e => n + g e) l k
  = k + fold_left (fun n e => n + g e) l 0.
Proof.
  revert k. induction l as [|x l IH]; intro k; cbn [fold_left]; [lia|].
  rewrite (IH (k + g x)), (IH (0 + g x)). lia.
Qed.

Lemma num_units_cons (a : annotator) (an : Annotation unit payload)
  (c : Continuum) :
  num_units ((a, an) :: c) = length an + num_units c.
Proof.
  unfold num_units. cbn [fold_left snd]. rewrite fold_left_add.
  reflexivity.
Qed.

Lemma length_timeline_pairs (c : Continuum) :
  NoDup (iterannotators c) ->
  length (timeline_pairs c) = num_units c.
Proof.
  unfold Pygamma.timeline_pairs, iterannotators.
  induction c as [|[a an] c IH]; intro Hnd; [reflexivity|].
  cbn [map fst] in *.
  apply NoDup_cons_iff in Hnd as [Ha Hnd].
  cbn [flat_map]. rewrite length_app, length_map.
  rewrite units_of_tail by exact Ha. rewrite (IH Hnd), num_units_cons.
  unfold Pygamma.units_of, itersegments. cbn [Pygamma.getitem].
  destruct (annotator_eq_dec a a) as [_|Hne]; [|contradiction].
  now rewrite length_map.
Qed.

(** X11: filling the constraints matrix never raises; over distinct
    annotators it writes exactly [continuum.num_units] rows, the shape
    given to [np.zeros], each with one entry per unitary alignement, and
    every entry is 0 or 1. *)
Theorem constraints_matrix_shape (c : Continuum)
  (uas : list UnitaryAlignement) :
  NoDup (iterannotators c) ->
  exists A,
    constraints_matrix c uas = Ok A
    /\ length A = num_units c
    /\ forall row, In row A ->
         length row = length uas
         /\ forall v, In v row -> v = Fin 0%Qc \/ v = Fin 1%Qc.
Proof.
  intro Hnd. exists (Program.matrix (constraints_rows c uas)).
  split; [apply constraints_matrix_eq|]. split.
  - unfold Program.matrix, Pygamma.constraints_rows. rewrite !length_map.
    now apply length_timeline_pairs.
  - intros row Hrow. unfold Program.matrix, Pygamma.constraints_rows in Hrow.
    rewrite map_map in Hrow. apply in_map_iff in Hrow as [p [<- _]].
    unfold Pygamma.incidence. rewrite map_map. split; [apply length_map|].
    intros v Hv. apply in_map_iff in Hv as [ua [<- _]].
    destruct (in_n_tuple (fst p) (snd p) ua); auto.
Qed.

(** ** More on the best alignement *)

Local Abbreviation alone :=
  (alone (unit:=unit) (payload:=payload) annotator_eq_dec).
Local Abbreviation get_unitary_alignements_best :=
  (Exact.get_unitary_alignements_best annotator_eq_dec unit_eq_dec
     dissimilarity DELTA_EMPTY solve).

(** X12: when the solver's value has one entry per pruned candidate, all
    zeros and ones, and satisfies the constraints it was given, the
    constructor of [BestAlignement] succeeds: the groupings it keeps are the
    candidates whose entry is above 0.9, in the order of the candidates, and
    they pass the set-partition tests. *)
Theorem feasible_value_constructs (c : Continuum) (value : list Qc) :
  solve (map disorder_value (kept c))
    (Program.matrix (constraints_rows c (kept c)))
  = Ok (Some (map Fin value)) ->
  length value = length (kept c) ->
  Program.feasible (constraints_rows c (kept c)) value = true ->
  get_unitary_alignements_best c = Ok (select (map selected value) (kept c))
  /\ BestAlignement_init c
     = Ok (mkBestAlignement c (select (map selected value) (kept c))).
Proof.
  intros Hv Hlen Hfeas.
  assert (Hbest : get_unitary_alignements_best c
                  = Ok (select (map selected value) (kept c))).
  { rewrite get_unitary_alignements_best_eq, Hv.
    rewrite choose_total by (cbn [Nat.add]; now rewrite length_map, Hlen).
    now rewrite above_finite. }
  split; [exact Hbest|].
  unfold Pygamma.BestAlignement_init. rewrite Hbest. cbn [bind].
  assert (Hbin : Program.binary value = true).
  { unfold Program.feasible in Hfeas.
    now apply andb_true_iff in Hfeas as [Hbin _]. }
  apply feasible_exact in Hfeas; [|exact Hlen | exact Hbin].
  apply set_partition_tests_exact in Hfeas. now rewrite Hfeas.
Qed.

Lemma kept_below_bound (c : Continuum) (ua : UnitaryAlignement) :
  In ua (kept c) ->
  In ua (candidates c)
  /\ exists q,
       disorder ua = Ok (Fin q) /\ (q < of_nat (len c) * DELTA_EMPTY)%Qc.
Proof.
  intro H. apply filter_In in H as [Hc Hb]. split; [exact Hc|].
  unfold Pygamma.below_bound in Hb.
  destruct (disorder ua) as [d|e] eqn:E; [|discriminate].
  destruct (disorder_fin_or_nan _ _ _ _ _ E) as [-> | [q ->]];
    [discriminate|].
  exists q. split; [reflexivity|]. cbn [flt Pygamma.bound] in Hb.
  now apply Qc_ltb_lt.
Qed.

(** X13: whatever the solver, the groupings of a best alignement that was
    constructed are pruned candidates: each has one slot per annotator of
    the timeline, holding a unit of that annotator or a gap, and a finite
    disorder strictly below [len(continuum) * DELTA_EMPTY]; together they
    reference every couple of the timeline exactly once. *)
Theorem BestAlignement_groupings (c : Continuum)
  (b : BestAlignement annotator unit payload) :
  BestAlignement_init c = Ok b ->
  best_continuum b = c
  /\ exact_partition c (set_unitary_alignements b)
  /\ forall ua,
       In ua (set_unitary_alignements b) ->
       In ua (candidates c)
       /\ exists q,
            disorder ua = Ok (Fin q)
            /\ (q < of_nat (len c) * DELTA_EMPTY)%Qc.
Proof.
  intro Hb.
  destruct (BestAlignement_init_ok _ _ _ _ _ _ Hb) as [value [_ [Hsel Hex]]].
  split; [|split; [exact Hex|]].
  - unfold Pygamma.BestAlignement_init in Hb.
    destruct (get_unitary_alignements_best c) as [uas|e]; cbn [bind] in Hb;
      [|discriminate].
    destruct (Pygamma.set_partition_tests _ _ c uas) as [[]|e];
      cbn [bind] in Hb; [|discriminate].
    now injection Hb as <-.
  - intros ua Hua. rewrite Hsel in Hua. apply select_incl in Hua.
    now apply kept_below_bound.
Qed.

Lemma Qcplus_lt_le_compat (a b x y : Qc) :
  (a < b -> x <= y -> a + x < b + y)%Qc.
Proof.
  intros Hab Hxy. apply Qcnot_le_lt. intro H.
  apply (Qclt_not_le _ _ Hab).
  assert (H1 : (a + x <= a + y)%Qc)
    by (apply Qcplus_le_compat; [apply Qcle_refl | exact Hxy]).
  assert (H2 : (b + y <= a + y)%Qc) by (eapply Qcle_trans; eassumption).
  assert (H3 := Qcplus_le_compat _ _ _ _ H2 (Qcle_refl (- y)%Qc)).
  replace (b + y + - y)%Qc with b in H3 by ring.
  replace (a + y + - y)%Qc with a in H3 by ring.
  exact H3.
Qed.

(** X14: over a timeline with at least one couple, a best alignement that
    was constructed has at least one grouping, and reading its disorder
    raises nothing: neither the [ZeroDivisionError] of an empty collection
    nor the [KeyError] of a lookup. *)
Theorem BestAlignement_disorder_returns (c : Continuum)
  (b : BestAlignement annotator unit payload) :
  BestAlignement_init c = Ok b ->
  timeline_pairs c <> [] ->
  set_unitary_alignements b <> []
  /\ exists d, BestAlignement_disorder b = Ok d.
Proof.
  intros Hb Hpairs.
  destruct (BestAlignement_init_ok _ _ _ _ _ _ Hb) as [value [_ [Hsel Hex]]].
  assert (Hne : set_unitary_alignements b <> []).
  { destruct (timeline_pairs c) as [|p ps] eqn:Ep; [contradiction|].
    assert (Hp : In p (timeline_pairs c)) by (rewrite Ep; now left).
    specialize (Hex p Hp). intro E. rewrite E in Hex. discriminate Hex. }
  split; [exact Hne|].
  unfold Pygamma.BestAlignement_disorder. rewrite mean_disorder_eq.
  rewrite mapM_disorder.
  2:{ intros ua Hua. rewrite Hsel in Hua. apply select_incl in Hua.
      now apply kept_disorder in Hua. }
  destruct (length (set_unitary_alignements b) =? 0) eqn:E0; [|eauto].
  apply Nat.eqb_eq, length_zero_iff_nil in E0. contradiction.
Qed.

Lemma select_and_filter {A : Type} (f : A -> bool) (mask : list bool)
  (l : list A) :
  select (map (fun p => fst p && f (snd p)) (combine mask l)) l
  = filter f (select mask l).
Proof.
  revert l. induction mask as [|b mask IH]; intros [|x l]; try reflexivity.
  cbn [combine map select fst snd]. destruct b; cbn [andb filter].
  - destruct (f x); now rewrite IH.
  - apply IH.
Qed.

Lemma references_with_units (p : annotator * unit)
  (uas : list UnitaryAlignement) :
  references p (filter (fun ua => has_unit (n_tuple ua)) uas)
  = references p uas.
Proof.
  induction uas as [|ua uas IH]; [reflexivity|].
  cbn [filter]. destruct (has_unit (n_tuple ua)) eqn:E.
  - now rewrite !references_cons, IH.
  - rewrite references_cons, IH. unfold Pygamma.in_n_tuple.
    now rewrite no_unit_no_couple.
Qed.

Lemma sum_cost_filter_le (f : UnitaryAlignement -> bool)
  (uas : list UnitaryAlignement) :
  (forall ua, In ua uas -> f ua = false -> 0 < cost ua)%Qc ->
  (sum_cost (filter f uas) <= sum_cost uas)%Qc.
Proof.
  unfold Pygamma.sum_cost.
  induction uas as [|ua uas IH]; intro H; [apply Qcle_refl|].
  specialize (IH (fun x Hx => H x (or_intror Hx))).
  cbn [filter]. destruct (f ua) eqn:E; cbn [map fold_right].
  - apply Qcplus_le_compat; [apply Qcle_refl | exact IH].
  - rewrite <- (Qcplus_0_l (fold_right _ _ (map cost (filter f uas)))).
    apply Qcplus_le_compat; [|exact IH].
    apply Qclt_le_weak. apply H; [now left | exact E].
Qed.

Lemma sum_cost_filter_lt (f : UnitaryAlignement -> bool)
  (uas : list UnitaryAlignement) (x : UnitaryAlignement) :
  (forall ua, In ua uas -> f ua = false -> 0 < cost ua)%Qc ->
  In x uas -> f x = false ->
  (sum_cost (filter f uas) < sum_cost uas)%Qc.
Proof.
  induction uas as [|ua uas IH]; intros H Hx Hf; [destruct Hx|].
  assert (Hle := @sum_cost_filter_le f uas (fun y Hy => H y (or_intror Hy))).
  unfold Pygamma.sum_cost in *. cbn [filter].
  destruct (f ua) eqn:E; cbn [map fold_right].
  - destruct Hx as [<-|Hx]; [congruence|].
    rewrite (Qcplus_comm (cost ua)), (Qcplus_comm (cost ua) (fold_right _ _ _)).
    apply Qcplus_lt_le_compat; [|apply Qcle_refl].
    apply IH; [intros y Hy; apply H; now right | exact Hx | exact Hf].
  - rewrite <- (Qcplus_0_l (fold_right _ _ (map cost (filter f uas)))).
    apply Qcplus_lt_le_compat; [|exact Hle].
    apply H; [now left | exact E].
Qed.

(** X15: with at least two annotators and a positive gap cost, the value of
    a solver that returns an optimal solution of its program never selects a
    grouping of gaps only: every grouping of the best alignement holds a
    unit. *)
Theorem optimal_selects_no_gaps (c : Continuum)
  (b : BestAlignement annotator unit payload) (ua : UnitaryAlignement) :
  2 <= len c ->
  (0 < DELTA_EMPTY)%Qc ->
  (forall value,
      solve (map disorder_value (kept c))
        (Program.matrix (constraints_rows c (kept c)))
      = Ok (Some value) ->
      Program.solution (map disorder_value (kept c))
        (constraints_rows c (kept c)) value) ->
  BestAlignement_init c = Ok b ->
  In ua (set_unitary_alignements b) ->
  has_unit (n_tuple ua) = true.
Proof.
  intros Hn Hg Hsolve Hb Hua.
  destruct (has_unit (n_tuple ua)) eqn:Hu; [reflexivity | exfalso].
  destruct (BestAlignement_init_ok _ _ _ _ _ _ Hb) as [value [Hv [Hsel Hex]]].
  destruct (Hsolve value Hv) as [sol [-> [Hlen _]]].
  rewrite length_map in Hlen. rewrite above_finite in Hsel.
  destruct (@best_minimises_selections _ _ _ annotator_eq_dec unit_eq_dec
              dissimilarity DELTA_EMPTY solve c b Hsolve Hb) as [_ Hmin].
  specialize (Hmin (map (fun p => fst p && has_unit (n_tuple (snd p)))
                      (combine (map selected sol) (kept c)))).
  rewrite (select_and_filter (fun x => has_unit (n_tuple x))) in Hmin.
  rewrite <- Hsel in Hmin.
  assert (Hcand : forall x, In x (set_unitary_alignements b) ->
                            In x (candidates c)).
  { intros x Hx. rewrite Hsel in Hx. apply select_incl in Hx.
    now apply filter_In in Hx as [Hx _]. }
  rewrite (@total_disorder_finite c) in Hmin; [|exact Hn | exact Hcand].
  rewrite (@total_disorder_finite c) in Hmin; [|exact Hn|].
  2:{ intros x Hx. apply filter_In in Hx as [Hx _]. now apply Hcand. }
  assert (Hle : (sum_cost (set_unitary_alignements b)
                 <= sum_cost (filter (fun x => has_unit (n_tuple x))
                                (set_unitary_alignements b)))%Qc).
  { apply fle_Fin. apply Hmin.
    - rewrite length_map, length_combine, length_map, Hlen.
      apply Nat.min_id.
    - intros p Hp. rewrite references_with_units. now apply Hex. }
  apply (Qcle_not_lt _ _ Hle).
  apply (@sum_cost_filter_lt _ _ ua); [|exact Hua | exact Hu].
  intros x Hx Hx'. rewrite (@no_unit_cost c x Hn (Hcand x Hx) Hx').
  exact Hg.
Qed.

Lemma Forall2_map_both {A B C : Type} (R : B -> C -> Prop) (f : A -> B)
  (g : A -> C) (l : list A) :
  (forall x, In x l -> R (f x) (g x)) -> Forall2 R (map f l) (map g l).
Proof.
  induction l as [|x l IH]; intro H; cbn [map]; constructor.
  - apply H. now left.
  - apply IH. intros y Hy. apply H. now right.
Qed.

Lemma in_timeline_pairs (c : Continuum) (a : annotator) (u : unit) :
  In (a, u) (timeline_pairs c) <->
  In a (iterannotators c) /\ In u (units_of c a).
Proof.
  unfold Pygamma.timeline_pairs. rewrite in_flat_map. split.
  - intros [b [Hb H]]. apply in_map_iff in H as [v [[= -> ->] Hv]]. now split.
  - intros [Ha Hu]. exists a. split; [exact Ha | now apply in_map].
Qed.

Lemma alone_candidate (c : Continuum) (p : annotator * unit) :
  In p (timeline_pairs c) -> In (alone c p) (product (slot_domains c)).
Proof.
  destruct p as [a u]. intro Hp. apply in_timeline_pairs in Hp as [_ Hu].
  apply in_product. unfold Pygamma.alone, Pygamma.slot_domains.
  apply Forall2_map_both. intros b _. cbn [fst snd].
  unfold Pygamma.slot_domain. apply in_map, in_or_app.
  destruct (annotator_eq_dec a b) as [<-|_].
  - left. now apply in_map.
  - right. now left.
Qed.

Lemma alone_one_unit (c : Continuum) (p : annotator * unit) :
  NoDup (iterannotators c) ->
  length (filter is_unit (alone c p)) <= 1.
Proof.
  unfold Pygamma.alone. generalize (iterannotators c). intros l Hnd.
  induction Hnd as [|b l Hb _ IH]; [cbn; lia|].
  cbn [map filter]. unfold is_unit at 1. cbn [what].
  destruct (annotator_eq_dec (fst p) b) as [E|_]; [|exact IH].
  rewrite filter_none; [cbn; lia|].
  intros s Hs. apply in_map_iff in Hs as [b' [<- Hb']].
  unfold is_unit. cbn [what].
  destruct (annotator_eq_dec (fst p) b') as [E'|_]; [|reflexivity].
  exfalso. apply Hb. congruence.
Qed.

Lemma alone_references (c : Continuum) (p q : annotator * unit) :
  In (fst p) (iterannotators c) ->
  in_n_tuple (fst q) (snd q) (mkUnitaryAlignement c (alone c p)) = true
  <-> p = q.
Proof.
  destruct p as [a u], q as [a' u']. cbn [fst snd]. intro Ha.
  unfold Pygamma.in_n_tuple, Pygamma.alone. cbn [n_tuple fst snd].
  rewrite existsb_exists. split.
  - intros [s [Hs E]]. apply slot_eqb_eq in E. subst s.
    apply in_map_iff in Hs as [b [E _]].
    destruct (annotator_eq_dec a b); congruence.
  - intros [= -> ->]. exists (mkSlot PyList a' (Some u')).
    split; [|now apply slot_eqb_eq].
    apply in_map_iff. exists a'. split; [|exact Ha].
    now destruct (annotator_eq_dec a' a').
Qed.

Lemma filter_unique {A : Type} (f : A -> bool) (l : list A) (q : A) :
  NoDup l -> In q l -> (forall p, In p l -> (f p = true <-> p = q)) ->
  length (filter f l) = 1.
Proof.
  induction 1 as [|x l Hx Hnd IH]; intros Hq Hf; [destruct Hq|].
  cbn [filter]. destruct (f x) eqn:E.
  - apply (Hf x (or_introl eq_refl)) in E. subst x.
    rewrite filter_none; [reflexivity|].
    intros y Hy. destruct (f y) eqn:Ey; [|reflexivity].
    apply (Hf y (or_intror Hy)) in Ey. subst y. contradiction.
  - destruct Hq as [->|Hq].
    + assert (f q = true) by now apply (Hf q (or_introl eq_refl)).
      congruence.
    + apply IH; [exact Hq|]. intros p Hp. apply Hf. now right.
Qed.

Lemma filter_map_swap {A B : Type} (f : B -> bool) (g : A -> B)
  (l : list A) :
  filter f (map g l) = map g (filter (fun x => f (g x)) l).
Proof.
  induction l as [|x l IH]; [reflexivity|].
  cbn [map filter]. destruct (f (g x)); cbn [map]; now rewrite IH.
Qed.

Lemma alone_cover (c : Continuum) :
  2 <= len c ->
  (0 < DELTA_EMPTY)%Qc ->
  NoDup (iterannotators c) ->
  NoDup (timeline_pairs c) ->
  exists mask uas,
    length mask = length (kept c)
    /\ Permutation (select mask (kept c)) uas
    /\ exact_partition c uas
    /\ length uas = length (timeline_pairs c)
    /\ forall ua, In ua uas -> cost ua = DELTA_EMPTY.
Proof.
  intros Hn Hg Hnd Hpairs.
  pose (T := map (fun p => mkUnitaryAlignement c (alone c p))
               (timeline_pairs c)).
  assert (Hgap : forall ua, In ua T ->
            In ua (candidates c) /\ disorder ua = Ok (Fin DELTA_EMPTY)).
  { intros ua Hua. apply in_map_iff in Hua as [p [<- Hp]].
    assert (Hcand := alone_candidate c p Hp).
    split; [unfold Pygamma.candidates; now apply in_map|].
    apply gap_cost_disorder.
    - apply candidate_valid in Hcand as [-> _]. exact Hn.
    - intros x Hx. apply (one_unit_couples (alone c p)); [|exact Hx].
      now apply alone_one_unit. }
  assert (Hkept : forall ua, In ua T -> In ua (kept c)).
  { intros ua Hua. destruct (Hgap ua Hua) as [Hcand Hd].
    apply filter_In. split; [exact Hcand|].
    unfold Pygamma.below_bound. rewrite Hd.
    cbn [flt Pygamma.bound]. apply Qc_ltb_lt. now apply gap_below_bound. }
  assert (Hpart : exact_partition c T).
  { intros q Hq. unfold Pygamma.references, T.
    rewrite filter_map_swap, length_map.
    apply filter_unique with (q := q); [exact Hpairs | exact Hq|].
    intros p Hp. apply alone_references.
    destruct p as [a u]. now apply in_timeline_pairs in Hp as [Ha _]. }
  assert (HndT : NoDup T).
  { apply (NoDup_of_unique (fun p x => in_n_tuple (fst p) (snd p) x)
             (timeline_pairs c)).
    - intros x Hx. apply in_map_iff in Hx as [p [<- Hp]]. exists p.
      split; [exact Hp|]. apply alone_references; [|reflexivity].
      destruct p as [a u]. now apply in_timeline_pairs in Hp as [Ha _].
    - intros p Hp. apply Nat.eq_le_incl. exact (Hpart p Hp). }
  destruct (@mask_of_sublist _ (kept c) T) as [mask [Hlen Hperm]].
  { intros x y Hx Hy. apply filter_In in Hx as [Hx _].
    apply Hkept, filter_In in Hy as [Hy _].
    now apply (candidate_decidable c). }
  { exact HndT. }
  { exact Hkept. }
  exists mask, T. split; [exact Hlen|]. split; [exact Hperm|].
  split; [exact Hpart|]. split; [apply length_map|].
  intros ua Hua. destruct (Hgap ua Hua) as [_ Hd].
  now apply cost_of_disorder.
Qed.


(** X17: [get_unitary_alignements_best] passes an exception of the solver
    on as it is, and raises [TypeError] when the solver has no value; with
    a value, what it returns is exactly the candidates whose entry is above
    0.9, in the order of the candidates, and its only exception is the
    [IndexError] of an entry above 0.9 past the last candidate, which needs
    a value longer than the list of candidates.  Generating and pruning the
    candidates and filling the matrix raise nothing. *)
Theorem get_unitary_alignements_best_errors (c : Continuum) :
  match solve (map disorder_value (kept c))
          (Program.matrix (constraints_rows c (kept c)))
  with
  | Raise e => get_unitary_alignements_best c = Raise e
  | Ok None => get_unitary_alignements_best c = Raise TypeError
  | Ok (Some value) =>
      (forall uas,
          get_unitary_alignements_best c = Ok uas ->
          uas = select (map above value) (kept c))
      /\ (forall e,
            get_unitary_alignements_best c = Raise e ->
            e = IndexError /\ length (kept c) < length value)
  end.
Proof.
  rewrite get_unitary_alignements_best_eq.
  destruct (solve _ _) as [[value|]|e]; [|reflexivity|reflexivity]. split.
  - intros uas H. now apply choose_select in H.
  - intros e H. split; [now apply choose_raise in H|].
    now apply choose_raise_length in H.
Qed.

End Optimality.

(** * The properties on small timelines *)

Section Instances.

Import Example.
Local Open Scope string_scope.

Lemma returns_eq (r : result string segment npfloat) (q : Qc) :
  returns r q = true -> r = Ok (Fin q).
Proof.
  destruct r as [[a| |s]|e]; simpl; try discriminate.
  intro H. apply Qc_eqb_eq in H. now subst.
Qed.

Lemma tenths_symmetric (u v : segment) : tenths (u, v) = tenths (v, u).
Proof.
  destruct u as [a b], v as [c d]. unfold tenths. cbn [fst snd].
  rewrite <- (Z.abs_opp (a - c)), <- (Z.abs_opp (b - d)).
  now rewrite !Z.opp_sub_distr, !Z.add_opp_l.
Qed.

Lemma positional64_symmetric : symmetric positional64.
Proof.
  intros u v p q. unfold positional64. now rewrite tenths_symmetric.
Qed.

(** The program of the small timeline with gap cost 1: four candidates,
    of disorders 3/2, 1, 1, 1, and the selection of the first alone is
    optimal. *)
Lemma optimum_is_optimal :
  Program.optimal (values 1%Qc timeline) (rows 1%Qc timeline)
    [1%Qc; 0%Qc; 0%Qc; 0%Qc].
Proof.
  split; [reflexivity|]. split; [reflexivity|].
  intros y Hlen Hfeas.
  destruct y as [|y1 [|y2 [|y3 [|y4 [|y5 y]]]]]; try discriminate Hlen.
  assert (Hbin : Program.binary [y1; y2; y3; y4] = true).
  { unfold Program.feasible in Hfeas.
    now apply andb_true_iff in Hfeas as [Hbin _]. }
  apply binary_cons in Hbin as [H1 Hbin].
  apply binary_cons in Hbin as [H2 Hbin].
  apply binary_cons in Hbin as [H3 Hbin].
  apply binary_cons in Hbin as [H4 _].
  destruct H1 as [-> | ->], H2 as [-> | ->], H3 as [-> | ->],
    H4 as [-> | ->];
    vm_compute in Hfeas; try discriminate Hfeas; vm_compute; reflexivity.
Qed.

Lemma answer_is_solution (value : list npfloat) :
  answer [1%Qc; 0%Qc; 0%Qc; 0%Qc] (values 1%Qc timeline)
    (Program.matrix (rows 1%Qc timeline)) = Ok (Some value) ->
  Program.solution (values 1%Qc timeline) (rows 1%Qc timeline) value.
Proof.
  intros [= <-]. exists [1%Qc; 0%Qc; 0%Qc; 0%Qc].
  split; [reflexivity | exact optimum_is_optimal].
Qed.

Lemma timeline_annotators_distinct : NoDup (iterannotators timeline).
Proof. repeat constructor; simpl; intuition discriminate. Qed.

Lemma timeline_pairs_distinct : NoDup (timeline_pairs string_dec timeline).
Proof. repeat constructor; simpl; intuition discriminate. Qed.

(** With gap cost 0 no candidate of the small timeline survives the
    pruning, and no selection covers its units. *)
Lemma no_cover_without_gap_cost (mask : list bool) :
  ~ partition timeline (select mask (pruned 0%Qc timeline)).
Proof.
  intro H. change (pruned 0%Qc timeline) with
    (@nil (UnitaryAlignement string segment string)) in H.
  rewrite select_nil in H.
  specialize (H ("A", u1) (or_introl eq_refl)). discriminate H.
Qed.

(** ** Counterexamples *)



(** C8, counterexample: with gap cost 0 no candidate survives the pruning,
    there is no exact cover, and the program has no variable; the
    [ValueError] that the solver raises on such a program reaches the
    caller as it is, from [get_unitary_alignements_best] and from the
    constructor: no infeasibility is reported. *)
Lemma solver_error_passed_on :
  (forall mask, ~ partition timeline (select mask (pruned 0%Qc timeline)))
  /\ pruned 0%Qc timeline = []
  /\ best_groupings 0%Qc (failing ValueError) timeline = Raise ValueError
  /\ best 0%Qc (failing ValueError) timeline = Raise ValueError.
Proof.
  split; [exact no_cover_without_gap_cost|].
  split; [reflexivity|]. split; reflexivity.
Qed.

(** C9, counterexample: over the single-annotator timeline the disorder of
    the grouping of its unit is [nan], which is neither an exception nor a
    finite value. *)
Lemma single_annotator_not_rejected :
  len solo = 1
  /\ disorder 1%Qc (mkUnitaryAlignement solo [mkSlot PyList "A" (Some u1)])
     = Ok NaN
  /\ (forall e,
        disorder 1%Qc
          (mkUnitaryAlignement solo [mkSlot PyList "A" (Some u1)])
        <> Raise e)
  /\ (forall q,
        disorder 1%Qc
          (mkUnitaryAlignement solo [mkSlot PyList "A" (Some u1)])
        <> Ok (Fin q)).
Proof.
  split; [reflexivity|]. split; [reflexivity|].
  split; intros x H; discriminate H.
Qed.

(** ** The claims on the small timeline *)



Lemma single_annotator_nan_witness :
  len solo = 1
  /\ (forall t, length t = len solo ->
                disorder 1%Qc (mkUnitaryAlignement solo t) = Ok NaN)
  /\ Exact.set_of_possible_unitary_alignements string_dec segment_eq_dec
       positional 1%Qc solo = Ok [].
Proof.
  split; [reflexivity|].
  apply (single_annotator_nan string_dec segment_eq_dec positional 1%Qc
           solo).
  reflexivity.
Defined.

Lemma empty_Alignement_disorder_witness :
  timeline_pairs string_dec blank = []
  /\ init blank [] = Ok (mkAlignement blank [])
  /\ mean 1%Qc (mkAlignement blank []) = Raise ZeroDivisionError.
Proof.
  split; [reflexivity|].
  apply (empty_Alignement_disorder string_dec segment_eq_dec positional
           1%Qc blank).
  reflexivity.
Defined.

Lemma no_exact_cover_raises_witness :
  (forall mask, ~ partition timeline (select mask (pruned 0%Qc timeline)))
  /\ best_groupings 0%Qc (failing ValueError) timeline = Raise ValueError
  /\ best 0%Qc (failing ValueError) timeline = Raise ValueError.
Proof.
  split; [exact no_cover_without_gap_cost|].
  exact (@no_exact_cover_raises _ _ _ string_dec segment_eq_dec positional
           0%Qc (failing ValueError) timeline no_cover_without_gap_cost).
Defined.


(** ** The further properties on the small timeline *)

Lemma disorder_few_slots_witness :
  length (@nil (slot string segment)) < 2
  /\ disorder 1%Qc (mkUnitaryAlignement timeline []) = Ok NaN.
Proof.
  split; [simpl; lia|].
  apply (disorder_few_slots string_dec segment_eq_dec positional 1%Qc
           timeline []).
  simpl; lia.
Defined.

Lemma Alignement_init_permutation_witness :
  Permutation [only_A; only_B] [only_B; only_A]
  /\ init timeline [only_B; only_A]
     = match init timeline [only_A; only_B] with
       | Ok _ => Ok (mkAlignement timeline [only_B; only_A])
       | Raise e => Raise e
       end.
Proof.
  split; [apply perm_swap|].
  apply (@Alignement_init_permutation _ _ _ string_dec segment_eq_dec
           timeline [only_A; only_B] [only_B; only_A]).
  apply perm_swap.
Defined.

Lemma Alignement_init_padding_witness :
  (forall ua p,
      In ua [gaps] -> In p (timeline_pairs string_dec timeline) ->
      in_n_tuple string_dec segment_eq_dec (fst p) (snd p) ua = false)
  /\ init timeline ([both] ++ [gaps])%list
     = match init timeline [both] with
       | Ok _ => Ok (mkAlignement timeline ([both] ++ [gaps])%list)
       | Raise e => Raise e
       end.
Proof.
  assert (H : forall ua p,
             In ua [gaps] -> In p (timeline_pairs string_dec timeline) ->
             in_n_tuple string_dec segment_eq_dec (fst p) (snd p) ua
             = false).
  { intros ua p [<-|[]] [<-|[<-|[]]]; reflexivity. }
  split; [exact H|].
  exact (@Alignement_init_padding _ _ _ string_dec segment_eq_dec timeline
           [both] [gaps] H).
Defined.

Lemma Alignement_init_error_witness :
  init timeline [both_as_tuples]
  = Raise (SetPartitionError (not_in_the_set "A" u1))
  /\ exists ps1 a u ps2,
       timeline_pairs string_dec timeline = (ps1 ++ (a, u) :: ps2)%list
       /\ (forall q, In q ps1 -> refs q [both_as_tuples] = 1)
       /\ ((SetPartitionError (not_in_the_set "A" u1)
            = SetPartitionError (not_in_the_set a u)
            /\ refs (a, u) [both_as_tuples] = 0)
           \/ (SetPartitionError (not_in_the_set "A" u1)
               = SetPartitionError (assigned_twice a u)
               /\ 1 < refs (a, u) [both_as_tuples])).
Proof.
  split; [reflexivity|].
  exact (@Alignement_init_error _ _ _ string_dec segment_eq_dec timeline
           [both_as_tuples] _ eq_refl).
Defined.

Lemma constraints_matrix_shape_witness :
  NoDup (iterannotators timeline)
  /\ exists A,
       Exact.constraints_matrix string_dec segment_eq_dec timeline
         [both; gaps] = Ok A
       /\ length A = num_units timeline
       /\ forall row, In row A ->
            length row = length [both; gaps]
            /\ forall v, In v row -> v = Fin 0%Qc \/ v = Fin 1%Qc.
Proof.
  split; [exact timeline_annotators_distinct|].
  exact (@constraints_matrix_shape _ _ _ string_dec segment_eq_dec timeline
           [both; gaps] timeline_annotators_distinct).
Defined.

Lemma feasible_value_constructs_witness :
  answer [1%Qc; 0%Qc; 0%Qc; 0%Qc] (values 1%Qc timeline)
    (Program.matrix (rows 1%Qc timeline))
  = Ok (Some (map Fin [1%Qc; 0%Qc; 0%Qc; 0%Qc]))
  /\ length [1%Qc; 0%Qc; 0%Qc; 0%Qc] = length (pruned 1%Qc timeline)
  /\ Program.feasible (rows 1%Qc timeline) [1%Qc; 0%Qc; 0%Qc; 0%Qc] = true
  /\ best_groupings 1%Qc (answer [1%Qc; 0%Qc; 0%Qc; 0%Qc]) timeline
     = Ok (select (map selected [1%Qc; 0%Qc; 0%Qc; 0%Qc])
             (pruned 1%Qc timeline))
  /\ best 1%Qc (answer [1%Qc; 0%Qc; 0%Qc; 0%Qc]) timeline
     = Ok (mkBestAlignement timeline
             (select (map selected [1%Qc; 0%Qc; 0%Qc; 0%Qc])
                (pruned 1%Qc timeline))).
Proof.
  split; [reflexivity|]. split; [reflexivity|]. split; [reflexivity|].
  exact (@feasible_value_constructs _ _ _ string_dec segment_eq_dec
           positional 1%Qc (answer [1%Qc; 0%Qc; 0%Qc; 0%Qc]) timeline
           [1%Qc; 0%Qc; 0%Qc; 0%Qc] eq_refl eq_refl eq_refl).
Defined.

Lemma BestAlignement_groupings_witness :
  best 1%Qc (answer [1%Qc; 0%Qc; 0%Qc; 0%Qc]) timeline
  = Ok (mkBestAlignement timeline [both])
  /\ best_continuum (mkBestAlignement timeline [both]) = timeline
  /\ partition timeline [both]
  /\ forall ua,
       In ua [both] ->
       In ua (candidates string_dec timeline)
       /\ exists q,
            disorder 1%Qc ua = Ok (Fin q)
            /\ (q < of_nat (len timeline) * 1)%Qc.
Proof.
  split; [reflexivity|].
  exact (@BestAlignement_groupings _ _ _ string_dec segment_eq_dec
           positional 1%Qc (answer [1%Qc; 0%Qc; 0%Qc; 0%Qc]) timeline
           (mkBestAlignement timeline [both]) eq_refl).
Defined.

Lemma BestAlignement_disorder_returns_witness :
  best 1%Qc (answer [1%Qc; 0%Qc; 0%Qc; 0%Qc]) timeline
  = Ok (mkBestAlignement timeline [both])
  /\ timeline_pairs string_dec timeline <> []
  /\ [both] <> []
  /\ exists d, best_mean 1%Qc (mkBestAlignement timeline [both]) = Ok d.
Proof.
  split; [reflexivity|]. split; [discriminate|].
  apply (@BestAlignement_disorder_returns _ _ _ string_dec segment_eq_dec
           positional 1%Qc (answer [1%Qc; 0%Qc; 0%Qc; 0%Qc]) timeline
           (mkBestAlignement timeline [both]));
    [reflexivity | discriminate].
Defined.

Lemma optimal_selects_no_gaps_witness :
  2 <= len timeline
  /\ (0 < 1)%Qc
  /\ (forall value,
        answer [1%Qc; 0%Qc; 0%Qc; 0%Qc] (values 1%Qc timeline)
          (Program.matrix (rows 1%Qc timeline)) = Ok (Some value) ->
        Program.solution (values 1%Qc timeline) (rows 1%Qc timeline) value)
  /\ best 1%Qc (answer [1%Qc; 0%Qc; 0%Qc; 0%Qc]) timeline
     = Ok (mkBestAlignement timeline [both])
  /\ In both (set_unitary_alignements (mkBestAlignement timeline [both]))
  /\ has_unit (n_tuple both) = true.
Proof.
  assert (Hn : 2 <= len timeline) by (simpl; lia).
  assert (Hg : (0 < 1)%Qc) by reflexivity.
  assert (Hin : In both
                  (set_unitary_alignements (mkBestAlignement timeline [both])))
    by now left.
  split; [exact Hn|]. split; [exact Hg|]. split; [exact answer_is_solution|].
  split; [reflexivity|]. split; [exact Hin|].
  exact (@optimal_selects_no_gaps _ _ _ string_dec segment_eq_dec positional
           1%Qc (answer [1%Qc; 0%Qc; 0%Qc; 0%Qc]) timeline
           (mkBestAlignement timeline [both]) both Hn Hg answer_is_solution
           eq_refl Hin).
Defined.


End Instances.

(** * The properties in binary64 *)

Section Rounding.

Import Example.
Import PrimFloat.
Local Open Scope string_scope.

(** C6, counterexample: over three annotators and with the gap cost 0.1,
    the grouping of three gaps adds 0.1 three times to 0.0 and divides by
    3.0: its disorder is 0.10000000000000002, which is not the gap
    cost. *)
Lemma all_gap_disorder_rounded :
  2 <= length (n_tuple trio_gaps)
  /\ (forall s, In s (n_tuple trio_gaps) -> what s = None)
  /\ disorder64 0.1%float trio_gaps = Ok 0.10000000000000002%float
  /\ eqb 0.10000000000000002%float 0.1%float = false.
Proof.
  split; [simpl; lia|]. split.
  - intros s [<-|[<-|[<-|[]]]]; reflexivity.
  - split; reflexivity.
Qed.

(** C7, counterexample: the three units are at the distances 0.1, 0.2 and
    0.3 of one another, a symmetric distance function.  In the order A, B,
    C the disorder of their grouping is (0.1 + 0.2 + 0.3) / 3.0, which is
    0.20000000000000004; in the order C, A, B it is (0.2 + 0.3 + 0.1) /
    3.0, which is 0.19999999999999998. *)
Lemma disorder_depends_on_order :
  symmetric positional64
  /\ Permutation (n_tuple trio_ABC) (n_tuple trio_CAB)
  /\ disorder64 0.1%float trio_ABC = Ok 0.20000000000000004%float
  /\ disorder64 0.1%float trio_CAB = Ok 0.19999999999999998%float
  /\ eqb 0.20000000000000004%float 0.19999999999999998%float = false.
Proof.
  split; [exact positional64_symmetric|]. split.
  - cbn [n_tuple trio_ABC trio_CAB].
    apply Permutation_sym, (Permutation_cons_app [_; _] []).
    apply Permutation_refl.
  - split; [reflexivity|]. split; reflexivity.
Qed.

Lemma all_gap_disorder_witness :
  2 <= length (n_tuple trio_gaps)
  /\ (forall s, In s (n_tuple trio_gaps) -> what s = None)
  /\ costs string_dec segment_eq_dec positional64 0.1%float
       (ua_continuum trio_gaps) (n_tuple trio_gaps)
     = [Some 0.1%float; Some 0.1%float; Some 0.1%float]
  /\ disorder64 0.1%float trio_gaps
     = Ok (((0 + 0.1 + 0.1 + 0.1) / Binary64.of_int 3)%float).
Proof.
  assert (Hn : 2 <= length (n_tuple trio_gaps)) by (simpl; lia).
  assert (H : forall s, In s (n_tuple trio_gaps) -> what s = None).
  { intros s [<-|[<-|[<-|[]]]]; reflexivity. }
  split; [exact Hn|]. split; [exact H|].
  exact (@all_gap_disorder _ _ _ string_dec segment_eq_dec _
           (Binary64.of_int 0) add div Binary64.of_int positional64
           0.1%float trio_gaps Hn H).
Defined.

Lemma disorder_permutation_witness :
  symmetric positional64
  /\ Permutation (n_tuple trio_ABC) (n_tuple trio_CAB)
  /\ Permutation [0.1%float; 0.2%float; 0.3%float]
       [0.2%float; 0.3%float; 0.1%float]
  /\ length [0.1%float; 0.2%float; 0.3%float] = 3
  /\ disorder64 0.1%float trio_ABC
     = Ok (((0 + 0.1 + 0.2 + 0.3) / Binary64.of_int 3)%float)
  /\ disorder64 0.1%float trio_CAB
     = Ok (((0 + 0.2 + 0.3 + 0.1) / Binary64.of_int 3)%float).
Proof.
  assert (Hp : Permutation (n_tuple trio_ABC) (n_tuple trio_CAB)).
  { cbn [n_tuple trio_ABC trio_CAB].
    apply Permutation_sym, (Permutation_cons_app [_; _] []).
    apply Permutation_refl. }
  split; [exact positional64_symmetric|]. split; [exact Hp|].
  exact (@disorder_permutation _ _ _ string_dec segment_eq_dec _
           (Binary64.of_int 0) add div Binary64.of_int positional64
           0.1%float trio (n_tuple trio_ABC) (n_tuple trio_CAB)
           positional64_symmetric Hp).
Defined.

Lemma disorder_one_unit_witness :
  2 <= length [mkSlot PyList "A" (Some a1); mkSlot PyList "B" None;
               mkSlot PyList "C" None]
  /\ length (filter is_unit
               [mkSlot PyList "A" (Some a1); mkSlot PyList "B" None;
                mkSlot PyList "C" None]) <= 1
  /\ disorder64 0.1%float
       (mkUnitaryAlignement trio
          [mkSlot PyList "A" (Some a1); mkSlot PyList "B" None;
           mkSlot PyList "C" None])
     = Ok (((0 + 0.1 + 0.1 + 0.1) / Binary64.of_int 3)%float).
Proof.
  assert (Hn : 2 <= length [mkSlot PyList "A" (Some a1);
                            mkSlot PyList "B" None;
                            mkSlot PyList "C" None]) by (simpl; lia).
  assert (H : length (filter is_unit
                        [mkSlot PyList "A" (Some a1);
                         mkSlot PyList "B" None;
                         mkSlot PyList "C" None]) <= 1) by (simpl; lia).
  split; [exact Hn|]. split; [exact H|].
  exact (@disorder_one_unit _ _ _ string_dec segment_eq_dec _
           (Binary64.of_int 0) add div Binary64.of_int positional64
           0.1%float trio _ Hn H).
Defined.

Lemma Alignement_disorder_mean_witness :
  init timeline [only_A; only_B; gaps]
  = Ok (mkAlignement timeline [only_A; only_B; gaps])
  /\ [only_A; only_B; gaps] <> []
  /\ mapM (disorder64 0.1%float) [only_A; only_B; gaps]
     = Ok [0.1%float; 0.1%float; 0.1%float]
  /\ mean64 0.1%float (mkAlignement timeline [only_A; only_B; gaps])
     = Ok (((0 + 0.1 + 0.1 + 0.1) / Binary64.of_int 3)%float)
  /\ mean64 0.1%float (mkAlignement timeline [only_A; only_B; gaps])
     = Ok 0.10000000000000002%float.
Proof.
  assert (Hi : init timeline [only_A; only_B; gaps]
               = Ok (mkAlignement timeline [only_A; only_B; gaps]))
    by reflexivity.
  assert (Hne : [only_A; only_B; gaps] <> []) by discriminate.
  split; [exact Hi|]. split; [exact Hne|]. split; [reflexivity|].
  split; [|reflexivity].
  exact (@Alignement_disorder_mean _ _ _ string_dec segment_eq_dec _
           (Binary64.of_int 0) add div Binary64.of_int positional64
           0.1%float timeline [only_A; only_B; gaps] _ Hi Hne).
Defined.

(** Candidate generation in binary64, on the timeline of two units at the
    distance 1.5: with the gap cost 0.5 the bound is 2 * 0.5 = 1.0; the
    grouping of the two units, of disorder 1.5, is discarded, and the three
    other tuples of the product, of disorder 0.5, are kept in the order of
    the product. *)
Lemma pruning_in_binary64 :
  mapM (disorder64 0.5%float) [both; only_A; only_B; gaps]
  = Ok [1.5%float; 0.5%float; 0.5%float; 0.5%float]
  /\ (Binary64.of_int (len timeline) * 0.5 = 1)%float
  /\ pruned64 0.5%float timeline = Ok [only_A; only_B; gaps].
Proof. split; [reflexivity|]. split; reflexivity. Qed.

End Rounding.
